(** * Repository reconciliation, the URL source and input checks of anaconda

    A shallow embedding of

    - [pyanaconda/modules/payloads/payload/dnf/repositories.py]
      (driver disk repositories, treeinfo repositories and their merge
      into the list of repositories),
    - [pyanaconda/modules/payloads/source/url/url.py]
      (the URL source: validation, kickstart import and export),
    - [pyanaconda/ui/helpers.py] (input checks and their handler),

    followed by the properties proved about them.

    Python objects are mutable and shared: the repository records live in
    a store and the lists hold references to them, so that the in-place
    assignment [r.enabled = False] of [update_treeinfo_repositories] is
    seen through every list that holds [r]. *)

From Stdlib Require Import Ascii.
From stdpp Require Import base strings gmap list fin_maps pretty sorting.

Local Open Scope string_scope.
Local Open Scope list_scope.
Local Open Scope nat_scope.

(** ** Constants *)

Module Constants.

(** Modelled from the spec: [pyanaconda.core.constants] is not among the
    sources. The origin tag of a derived record is the distinguished
    value TREEINFO, every other value stands for a record declared by a
    user or by the system. *)
Definition REPO_ORIGIN_TREEINFO : string := "TREEINFO".
Definition REPO_ORIGIN_USER : string := "USER".

(** Modelled from the spec: the enumeration BASEURL, MIRRORLIST, METALINK
    of [pyanaconda.core.constants]; the values are strings, as the check
    [url_type not in URL_TYPES] of the URL source expects values outside
    of the enumeration. *)
Definition URL_TYPE_BASEURL : string := "BASEURL".
Definition URL_TYPE_MIRRORLIST : string := "MIRRORLIST".
Definition URL_TYPE_METALINK : string := "METALINK".
Definition URL_TYPES : list string :=
  [URL_TYPE_BASEURL; URL_TYPE_MIRRORLIST; URL_TYPE_METALINK].

End Constants.

Import Constants.

(** ** Data structures *)

Module Structures.

(** Modelled from the spec: the nested record of certificate paths of
    [pyanaconda.modules.common.structures.payload], which is not among
    the sources. *)
Record SSLConfigurationData := mkSSL {
  ca_cert_path : string;
  client_cert_path : string;
  client_key_path : string
}.

(** Modelled from the spec: the record of
    [pyanaconda.modules.common.structures.payload] with the fields of
    the data model of the spec. *)
Record RepoConfigurationData := mkRepo {
  name : string;
  origin : string;
  enabled : bool;
  url : string;
  type : string;
  ssl_verification_enabled : bool;
  ssl_configuration : SSLConfigurationData;
  proxy : string;
  installation_enabled : bool
}.

(** Modelled from the spec: what the constructors return. The spec
    fixes that a new record verifies certificates; for the other fields
    it says "defaults" only, and the values here are those of the class
    of this repository: enabled, declared by a user, of type BASEURL, not
    enabled for the installation, with empty strings elsewhere. The
    properties below name these values through [RepoConfigurationData_new]
    and depend on them only where they say so. *)
Definition SSLConfigurationData_new : SSLConfigurationData :=
  mkSSL "" "" "".

Definition RepoConfigurationData_new : RepoConfigurationData :=
  {| name := "";
     origin := REPO_ORIGIN_USER;
     enabled := true;
     url := "";
     type := URL_TYPE_BASEURL;
     ssl_verification_enabled := true;
     ssl_configuration := SSLConfigurationData_new;
     proxy := "";
     installation_enabled := false |}.

(** Attribute assignments [r.field = v]. *)
Definition set_name (v : string) (r : RepoConfigurationData) :=
  mkRepo v (origin r) (enabled r) (url r) (type r)
         (ssl_verification_enabled r) (ssl_configuration r) (proxy r)
         (installation_enabled r).
Definition set_origin (v : string) (r : RepoConfigurationData) :=
  mkRepo (name r) v (enabled r) (url r) (type r)
         (ssl_verification_enabled r) (ssl_configuration r) (proxy r)
         (installation_enabled r).
Definition set_enabled (v : bool) (r : RepoConfigurationData) :=
  mkRepo (name r) (origin r) v (url r) (type r)
         (ssl_verification_enabled r) (ssl_configuration r) (proxy r)
         (installation_enabled r).
Definition set_url (v : string) (r : RepoConfigurationData) :=
  mkRepo (name r) (origin r) (enabled r) v (type r)
         (ssl_verification_enabled r) (ssl_configuration r) (proxy r)
         (installation_enabled r).
Definition set_type (v : string) (r : RepoConfigurationData) :=
  mkRepo (name r) (origin r) (enabled r) (url r) v
         (ssl_verification_enabled r) (ssl_configuration r) (proxy r)
         (installation_enabled r).
Definition set_ssl_verification_enabled (v : bool)
    (r : RepoConfigurationData) :=
  mkRepo (name r) (origin r) (enabled r) (url r) (type r)
         v (ssl_configuration r) (proxy r) (installation_enabled r).
Definition set_ssl_configuration (v : SSLConfigurationData)
    (r : RepoConfigurationData) :=
  mkRepo (name r) (origin r) (enabled r) (url r) (type r)
         (ssl_verification_enabled r) v (proxy r) (installation_enabled r).
Definition set_proxy (v : string) (r : RepoConfigurationData) :=
  mkRepo (name r) (origin r) (enabled r) (url r) (type r)
         (ssl_verification_enabled r) (ssl_configuration r) v
         (installation_enabled r).
Definition set_installation_enabled (v : bool)
    (r : RepoConfigurationData) :=
  mkRepo (name r) (origin r) (enabled r) (url r) (type r)
         (ssl_verification_enabled r) (ssl_configuration r) (proxy r) v.

Definition set_ca_cert_path (v : string) (s : SSLConfigurationData) :=
  mkSSL v (client_cert_path s) (client_key_path s).
Definition set_client_cert_path (v : string) (s : SSLConfigurationData) :=
  mkSSL (ca_cert_path s) v (client_key_path s).
Definition set_client_key_path (v : string) (s : SSLConfigurationData) :=
  mkSSL (ca_cert_path s) (client_cert_path s) v.

#[global] Instance SSLConfigurationData_eq_dec :
  EqDecision SSLConfigurationData.
Proof. solve_decision. Defined.

#[global] Instance RepoConfigurationData_eq_dec :
  EqDecision RepoConfigurationData.
Proof. solve_decision. Defined.

#[global] Instance RepoConfigurationData_inhabited :
  Inhabited RepoConfigurationData := populate RepoConfigurationData_new.

(** Modelled from the spec: the tree metadata record produced outside
    of the sources, with its read-only fields name, url and enabled. *)
Record TreeInfoRepoMetadata := mkMd {
  md_name : string;
  md_url : string;
  md_enabled : bool
}.

End Structures.

Import Structures.

(** ** The store of repository records *)

Module Store.

(** A reference to a record. *)
Abbreviation loc := nat.

(** The store maps the references in use to the records. A list of
    repositories of the program is a list of references. *)
Abbreviation heap := (gmap nat RepoConfigurationData).

(** [r.field = v], where [f] is the assignment. *)
Definition setattr (f : RepoConfigurationData → RepoConfigurationData)
    (r : loc) (h : heap) : heap :=
  <[r := f (h !!! r)]> h.

(** [copy.deepcopy(r)]: a new reference to an equal record, which
    shares nothing with [r] (the nested record is part of the value). *)
Definition deepcopy (r : loc) (h : heap) : heap * loc :=
  let r' := fresh (dom h) in (<[r' := h !!! r]> h, r').

(** The records a list of references stands for. *)
Definition contents (h : heap) (l : list loc) : list RepoConfigurationData :=
  (h !!!.) <$> l.

End Store.

Import Store.

(** ** repositories.py: treeinfo repositories *)

Module Repositories.

(** [generate_treeinfo_repository(repo_data, repo_md)] *)
Definition generate_treeinfo_repository (repo_data : loc)
    (repo_md : TreeInfoRepoMetadata) (h : heap) : heap * loc :=
  let '(h, repo) := deepcopy repo_data h in
  let h := setattr (set_origin REPO_ORIGIN_TREEINFO) repo h in
  let h := setattr (set_name (md_name repo_md)) repo h in
  let h := setattr (set_type URL_TYPE_BASEURL) repo h in
  let h := setattr (set_url (md_url repo_md)) repo h in
  let h := setattr (set_enabled (md_enabled repo_md)) repo h in
  let h := setattr (set_installation_enabled false) repo h in
  (h, repo).

(** [r.origin == REPO_ORIGIN_TREEINFO] *)
Definition is_treeinfo (h : heap) (r : loc) : Prop :=
  origin (h !!! r) = REPO_ORIGIN_TREEINFO.

#[global] Instance is_treeinfo_dec h r : Decision (is_treeinfo h r).
Proof. unfold is_treeinfo. apply _. Defined.

(** The set comprehension
    [{r.name for r in repositories
      if r.origin == REPO_ORIGIN_TREEINFO and not r.enabled}]. *)
Definition disabled_names (h : heap) (repositories : list loc)
    : gset string :=
  list_to_set
    ((λ r, name (h !!! r)) <$>
     filter (λ r, is_treeinfo h r ∧ enabled (h !!! r) = false)
            repositories).

(** One turn of the loop
    [for r in treeinfo_repositories:
       if r.name in disabled: r.enabled = False]. *)
Definition disable_if_listed (disabled : gset string) (h : heap) (r : loc)
    : heap :=
  if decide (name (h !!! r) ∈ disabled)
  then setattr (set_enabled false) r h
  else h.

(** The set comprehension
    [{r.url for r in repositories
      if r.origin != REPO_ORIGIN_TREEINFO and r.url}]. *)
Definition existing_urls (h : heap) (repositories : list loc)
    : gset string :=
  list_to_set
    ((λ r, url (h !!! r)) <$>
     filter (λ r, ¬ is_treeinfo h r ∧ url (h !!! r) ≠ "")
            repositories).

(** [update_treeinfo_repositories(repositories, treeinfo_repositories)]:
    the store after the call and the list it returns. *)
Definition update_treeinfo_repositories (repositories : list loc)
    (treeinfo_repositories : list loc) (h : heap) : heap * list loc :=
  let disabled := disabled_names h repositories in
  let h := foldl (disable_if_listed disabled) h treeinfo_repositories in
  let existing := existing_urls h repositories in
  let treeinfo_repositories :=
    filter (λ r, url (h !!! r) ∉ existing) treeinfo_repositories in
  let repositories :=
    filter (λ r, ¬ is_treeinfo h r) repositories in
  (* for r in treeinfo_repositories: repositories.append(r) *)
  let repositories :=
    foldl (λ acc r, acc ++ [r]) repositories treeinfo_repositories in
  (h, repositories).

(** *** Vocabulary of the properties *)

(** What the loop over the treeinfo repositories does to one record. *)
Definition adjust (disabled : gset string) (v : RepoConfigurationData)
    : RepoConfigurationData :=
  if decide (name v ∈ disabled) then set_enabled false v else v.

(** A record of the list was disabled before: it comes from a treeinfo
    file, is not enabled and has the name [n]. *)
Definition previously_disabled (h : heap) (L : list loc) (n : string)
    : Prop :=
  ∃ l, l ∈ L ∧ is_treeinfo h l ∧ enabled (h !!! l) = false ∧
       name (h !!! l) = n.

(** A record of the list that does not come from a treeinfo file has
    the url [u], which is not empty. *)
Definition declared_by_user (h : heap) (L : list loc) (u : string)
    : Prop :=
  ∃ l, l ∈ L ∧ ¬ is_treeinfo h l ∧ url (h !!! l) ≠ "" ∧
       url (h !!! l) = u.

(** The records of [L] that do not come from a treeinfo file. *)
Definition kept (h : heap) (L : list loc) : list loc :=
  filter (λ r, ¬ is_treeinfo h r) L.

(** The records of [T] whose url is not in the set of existing urls. *)
Definition surviving (h : heap) (L T : list loc) : list loc :=
  filter (λ t, url (h !!! t) ∉ existing_urls h L) T.

End Repositories.

Import Repositories.

(** ** repositories.py: driver disk repositories *)

Module DriverDisks.

(** Modelled from the spec: [join_paths] of [pyanaconda.core.path] is
    not among the sources; the spec writes the joined path as
    [<path>/DD-<n>]. *)
Definition join_paths (path p : string) : string := path +:+ "/" +:+ p.

(** What the scan asks of its environment, in the order of the calls. *)
Inductive event :=
| IsDir (path : string)                       (* os.path.isdir(path) *)
| Glob (pattern : string)                     (* glob(pattern) *)
| Exec (command : string) (args : list string). (* execWithRedirect *)

(** ["DD-{}".format(i)] and the path of that directory. *)
Definition dd_name (i : nat) : string := "DD-" +:+ pretty i.
Definition dd_path (path : string) (i : nat) : string :=
  join_paths path (dd_name i).

(** [break], [continue] (also at the end of the body) or an exception
    that leaves the loop. *)
Inductive control := Break | Continue | Propagate.

Section Scan.

(** The file system and the external command are outside of the
    program: [World] is the state of the file system, [isdir] and
    [glob] read it, and [execWithRedirect] changes it or fails (its
    failure is not caught by the scan). *)
Context {World : Type}.
Variable isdir : World → string → bool.
Variable glob : World → string → list string.
Variable execWithRedirect : string → list string → World → option World.

(** The records of driver disks are created by the scan and held by
    its list only, so the list holds them by value. *)
Record state := mkState {
  world : World;
  trace : list event;
  repositories : list RepoConfigurationData
}.

Definition log (e : event) (st : state) : state :=
  mkState (world st) (trace st ++ [e]) (repositories st).

(** The body of [for i in count(start=1)]. *)
Definition body (path : string) (i : nat) (st : state)
    : control * state :=
  let repo_name := dd_name i in
  let repo_path := join_paths path repo_name in
  (* Is there a directory of this name? *)
  let st := log (IsDir repo_path) st in
  if negb (isdir (world st) repo_path) then (Break, st) else
  (* Are there RPMs in this directory? *)
  let st := log (Glob (repo_path +:+ "/*rpm")) st in
  match glob (world st) (repo_path +:+ "/*rpm") with
  | [] => (Continue, st)
  | _ :: _ =>
    (* Create a repository if there are no repodata. *)
    let st := log (IsDir (join_paths repo_path "repodata")) st in
    let created :=
      if negb (isdir (world st) (join_paths repo_path "repodata"))
      then
        let st := log (Exec "createrepo_c" [repo_path]) st in
        match execWithRedirect "createrepo_c" [repo_path] (world st) with
        | Some w => inr (mkState w (trace st) (repositories st))
        | None => inl st
        end
      else inr st in
    match created with
    | inl st => (Propagate, st)
    | inr st =>
      (* Generate a repo configuration. *)
      let repo := RepoConfigurationData_new in
      let repo := set_name repo_name repo in
      let repo := set_url ("file://" +:+ repo_path) repo in
      (Continue,
       mkState (world st) (trace st) (repositories st ++ [repo]))
    end
  end.

(** How a call ends: with [return repositories] or with the exception
    of the external command. *)
Inductive outcome :=
| Returned (st : state)
| Raised (st : state).

(** The loop counts up without a bound; [fuel] bounds the number of
    turns and [None] means that it did not suffice. *)
Fixpoint scan (fuel : nat) (path : string) (i : nat) (st : state)
    : option outcome :=
  match fuel with
  | 0 => None
  | S fuel =>
    match body path i st with
    | (Break, st) => Some (Returned st)
    | (Propagate, st) => Some (Raised st)
    | (Continue, st) => scan fuel path (S i) st
    end
  end.

(** [generate_driver_disk_repositories(path)], where
    [can_use_driver_disks] is [conf.system.can_use_driver_disks]. *)
Definition generate_driver_disk_repositories (fuel : nat)
    (can_use_driver_disks : bool) (path : string) (w : World)
    : option outcome :=
  let st := mkState w [] [] in
  if negb can_use_driver_disks then Some (Returned st)
  else scan fuel path 1 st.

(** The scan has arrived at index [k] in state [st']: every turn
    before ended with [continue]. *)
Inductive reaches (path : string) : nat → state → nat → state → Prop :=
| reaches_here i st : reaches path i st i st
| reaches_next i st st1 k st' :
    body path i st = (Continue, st1) →
    reaches path (S i) st1 k st' →
    reaches path i st k st'.

End Scan.

(** The events of the turn for index [j]. *)
Definition about (path : string) (j : nat) (e : event) : Prop :=
  e = IsDir (dd_path path j) ∨ e = Glob (dd_path path j +:+ "/*rpm") ∨
  e = IsDir (join_paths (dd_path path j) "repodata") ∨
  e = Exec "createrepo_c" [dd_path path j].

(** The directory of index [j] is examined in a trace. *)
Definition examined (path : string) (j : nat) (tr : list event) : Prop :=
  ∃ e, e ∈ tr ∧ about path j e.

(** The external command is invoked in a trace. *)
Definition invoked (tr : list event) : Prop :=
  ∃ c a, Exec c a ∈ tr.

(** The events of a turn that finds rpm files and repodata. *)
Definition quiet_turn (path : string) (i : nat) : list event :=
  [IsDir (dd_path path i); Glob (dd_path path i +:+ "/*rpm");
   IsDir (join_paths (dd_path path i) "repodata")].

(** Strings of decimal digits. *)
Definition is_digit (c : ascii) : bool :=
  bool_decide (c ∈ ["0"; "1"; "2"; "3"; "4"; "5"; "6"; "7"; "8"; "9"]%char).

Fixpoint all_digits (s : string) : bool :=
  match s with
  | EmptyString => true
  | String c s => is_digit c && all_digits s
  end.

Definition default_path : string := "/run/install".

(** The record the scan emits for index [i]. *)
Definition dd_repo (path : string) (i : nat) : RepoConfigurationData :=
  set_url ("file://" +:+ path +:+ "/" +:+ dd_name i)
    (set_name (dd_name i) RepoConfigurationData_new).

End DriverDisks.

(** ** url.py: the URL source *)

Module KS.

(** Modelled from the spec: the declarative record [data.url] of the
    kickstart parser, which is not among the sources. The three
    URL-shaped fields and the three certificate paths may be unset
    ([None]); the source reads the proxy as a string. *)
Record url_data := mk {
  url : option string;
  mirrorlist : option string;
  metalink : option string;
  proxy : string;
  noverifyssl : bool;
  sslcacert : option string;
  sslclientcert : option string;
  sslclientkey : option string;
  seen : bool
}.

(** A fresh record: nothing is set. *)
Definition fresh : url_data :=
  mk None None None "" false None None None false.

(** The truth value of [None] and of the empty string is false. *)
Definition truthy (o : option string) : bool :=
  match o with
  | Some s => negb (bool_decide (s = ""))
  | None => false
  end.

(** [o or ""] *)
Definition or_empty (o : option string) : string :=
  match o with
  | Some s => s
  | None => ""
  end.

End KS.

Module URLSource.

(** The state of a [URLSourceModule]: the configuration it holds and,
    for the signal [repo_configuration_changed], the values emitted so
    far. *)
Record URLSourceModule := mkModule {
  repo_configuration : RepoConfigurationData;
  emitted : list RepoConfigurationData
}.

(** [__init__] *)
Definition init : URLSourceModule :=
  mkModule RepoConfigurationData_new [].

Inductive exn := InvalidValueError (msg : string).

Inductive result (A : Type) :=
| Ok (a : A)
| Raise (e : exn).
Arguments Ok {A} a.
Arguments Raise {A} e.

(** A method runs on the state of the module and returns or raises;
    the state at the time of the exception is kept. *)
Definition M (A : Type) : Type :=
  URLSourceModule → result A * URLSourceModule.

#[global] Instance M_ret : MRet M := λ A a self, (Ok a, self).
#[global] Instance M_bind : MBind M := λ A B f m self,
  match m self with
  | (Ok a, self) => f a self
  | (Raise e, self) => (Raise e, self)
  end.

Definition raise {A} (e : exn) : M A := λ self, (Raise e, self).
Definition get : M URLSourceModule := λ self, (Ok self, self).

(** [self._repo_configuration = c] *)
Definition assign (c : RepoConfigurationData) : M unit :=
  λ self, (Ok (), mkModule c (emitted self)).

(** Modelled from the spec: [Signal.emit] of [pyanaconda.core.signal] is
    not among the sources; the subscribers are notified with the value,
    which is recorded here. *)
Definition emit (c : RepoConfigurationData) : M unit :=
  λ self, (Ok (), mkModule (repo_configuration self) (emitted self ++ [c])).

Section Methods.

(** [ProxyString(url=proxy)] of [pyanaconda.core.payload] is not among
    the sources: [ProxyString_error proxy] is the text of the
    [ProxyStringError] it raises, if it raises. *)
Variable ProxyString_error : string → option string.

Definition _validate_proxy (proxy : string) : M unit :=
  if decide (proxy = "") then mret ()
  else
    match ProxyString_error proxy with
    | Some e =>
      raise (InvalidValueError
               ("Proxy URL does not have valid format: " +:+ e))
    | None => mret ()
    end.

Definition _validate_url (url_type : string) : M unit :=
  if decide (url_type ∈ URL_TYPES) then mret ()
  else raise (InvalidValueError
                ("Invalid source type set '" +:+ url_type +:+ "'")).

Definition set_repo_configuration
    (repo_configuration' : RepoConfigurationData) : M unit :=
  _validate_url (type repo_configuration') ;;
  _validate_proxy (proxy repo_configuration') ;;
  assign repo_configuration' ;;
  self ← get ;
  emit (repo_configuration self).

(** The record [process_kickstart] builds from [data.url], starting
    from a new record [repo_data]. *)
Definition kickstart_to_repo (repo_data : RepoConfigurationData)
    (data : KS.url_data) : RepoConfigurationData :=
  let repo_data :=
    if KS.truthy (KS.url data) then
      set_type URL_TYPE_BASEURL
        (set_url (KS.or_empty (KS.url data)) repo_data)
    else if KS.truthy (KS.mirrorlist data) then
      set_type URL_TYPE_MIRRORLIST
        (set_url (KS.or_empty (KS.mirrorlist data)) repo_data)
    else if KS.truthy (KS.metalink data) then
      set_type URL_TYPE_METALINK
        (set_url (KS.or_empty (KS.metalink data)) repo_data)
    else repo_data in
  let repo_data := set_proxy (KS.proxy data) repo_data in
  let repo_data :=
    set_ssl_verification_enabled (negb (KS.noverifyssl data)) repo_data in
  let repo_data :=
    set_ssl_configuration
      (set_ca_cert_path (KS.or_empty (KS.sslcacert data))
         (ssl_configuration repo_data)) repo_data in
  let repo_data :=
    set_ssl_configuration
      (set_client_cert_path (KS.or_empty (KS.sslclientcert data))
         (ssl_configuration repo_data)) repo_data in
  let repo_data :=
    set_ssl_configuration
      (set_client_key_path (KS.or_empty (KS.sslclientkey data))
         (ssl_configuration repo_data)) repo_data in
  repo_data.

Definition process_kickstart (data : KS.url_data) : M unit :=
  set_repo_configuration
    (kickstart_to_repo RepoConfigurationData_new data).

(** [setup_kickstart] reads the module and assigns to the fields of
    [data.url]; it returns the record after the assignments. *)
Definition setup_kickstart (self : URLSourceModule)
    (data : KS.url_data) : KS.url_data :=
  let c := repo_configuration self in
  let data :=
    if decide (type c = URL_TYPE_BASEURL) then
      KS.mk (Some (url c)) (KS.mirrorlist data) (KS.metalink data)
            (KS.proxy data) (KS.noverifyssl data) (KS.sslcacert data)
            (KS.sslclientcert data) (KS.sslclientkey data) (KS.seen data)
    else if decide (type c = URL_TYPE_MIRRORLIST) then
      KS.mk (KS.url data) (Some (url c)) (KS.metalink data)
            (KS.proxy data) (KS.noverifyssl data) (KS.sslcacert data)
            (KS.sslclientcert data) (KS.sslclientkey data) (KS.seen data)
    else if decide (type c = URL_TYPE_METALINK) then
      KS.mk (KS.url data) (KS.mirrorlist data) (Some (url c))
            (KS.proxy data) (KS.noverifyssl data) (KS.sslcacert data)
            (KS.sslclientcert data) (KS.sslclientkey data) (KS.seen data)
    else data in
  KS.mk (KS.url data) (KS.mirrorlist data) (KS.metalink data)
        (proxy c)
        (negb (ssl_verification_enabled c))
        (Some (ca_cert_path (ssl_configuration c)))
        (Some (client_cert_path (ssl_configuration c)))
        (Some (client_key_path (ssl_configuration c)))
        true.

(** The states a module can be in: the initial one and those after
    a call of [set_repo_configuration], whether it returned or
    raised. *)
Inductive reachable : URLSourceModule → Prop :=
| reachable_init : reachable init
| reachable_set self c r self' :
    reachable self →
    set_repo_configuration c self = (r, self') →
    reachable self'.

(** The proxy is a well-formed proxy URL: [ProxyString] accepts it. *)
Definition well_formed_proxy (proxy : string) : Prop :=
  ProxyString_error proxy = None.

(** What the two validations refuse. *)
Definition rejected (c : RepoConfigurationData) : Prop :=
  type c ∉ URL_TYPES ∨ (proxy c ≠ "" ∧ ¬ well_formed_proxy (proxy c)).

(** The fields the kickstart record carries. *)
Definition same_source (c c' : RepoConfigurationData) : Prop :=
  url c' = url c ∧ type c' = type c ∧ proxy c' = proxy c ∧
  ssl_verification_enabled c' = ssl_verification_enabled c ∧
  ca_cert_path (ssl_configuration c')
    = ca_cert_path (ssl_configuration c) ∧
  client_cert_path (ssl_configuration c')
    = client_cert_path (ssl_configuration c) ∧
  client_key_path (ssl_configuration c')
    = client_key_path (ssl_configuration c).

End Methods.

End URLSource.

(** ** helpers.py: input checks *)

Module Helpers.

(** The status of a check: [None] or a string. *)
Definition status := option string.

(** Use as a return value to indicate a passed check *)
Definition CHECK_OK : status := None.

(** Treat the check as failed but don't display anything *)
Definition CHECK_SILENT : status := Some "".

Section InputChecks.

(** The input objects and the optional data are those of the
    toolkit. *)
Variables Input Data : Type.

(** What a check function can read of the [InputCheck] it is called
    with. *)
Record view := mkView {
  view_input_obj : Input;
  view_data : option Data;
  view_check_status : status;
  view_enabled : bool
}.

Record InputCheck := mkCheck {
  input_obj : Input;
  run_check : view → status;
  data : option Data;
  check_status : status;
  enabled : bool
}.

(** [InputCheck.__init__] *)
Definition InputCheck_init (input_obj : Input)
    (run_check : view → status) (data : option Data) : InputCheck :=
  mkCheck input_obj run_check data None true.

(** The state of an [InputCheckHandler]: its checks, which the callers
    of [add_check] refer to by their position, and the calls of the
    abstract method [set_status]. *)
Record InputCheckHandler := mkHandler {
  check_list : list InputCheck;
  set_status_calls : list nat
}.

(** [InputCheckHandler.__init__] *)
Definition handler_init : InputCheckHandler := mkHandler [] [].

(** [add_check]: the new state and the reference it returns. *)
Definition add_check (input_obj : Input) (run_check : view → status)
    (data : option Data) (self : InputCheckHandler)
    : InputCheckHandler * nat :=
  let checkRef := InputCheck_init input_obj run_check data in
  (mkHandler (check_list self ++ [checkRef]) (set_status_calls self),
   length (check_list self)).

(** [InputCheck.update_check_status] of the check at [ref]. *)
Definition update_check_status (ref : nat) (self : InputCheckHandler)
    : InputCheckHandler :=
  match check_list self !! ref with
  | None => self
  | Some c =>
    if negb (enabled c) then self
    else
      let st := run_check c (mkView (input_obj c) (data c)
                                    (check_status c) (enabled c)) in
      let c := mkCheck (input_obj c) (run_check c) (data c) st
                       (enabled c) in
      mkHandler (<[ref := c]> (check_list self))
                (set_status_calls self ++ [ref])
  end.

(** The setter of [InputCheck.enabled] on the check at [ref]. *)
Definition set_enabled (ref : nat) (value : bool)
    (self : InputCheckHandler) : InputCheckHandler :=
  match check_list self !! ref with
  | None => self
  | Some c =>
    let c := mkCheck (input_obj c) (run_check c) (data c)
                     (check_status c) value in
    mkHandler (<[ref := c]> (check_list self)) (set_status_calls self)
  end.

(** [c.enabled and c.check_status != InputCheck.CHECK_OK] *)
Definition failing (c : InputCheck) : bool :=
  enabled c && negb (bool_decide (check_status c = CHECK_OK)).

(** [failed_checks]: the checks the generator yields, in order. *)
Definition failed_checks (self : InputCheckHandler) : list InputCheck :=
  filter (λ c, failing c = true) (check_list self).

(** [failed_checks_with_message] *)
Definition failed_checks_with_message (self : InputCheckHandler)
    : list InputCheck :=
  filter (λ c, enabled c = true ∧
               check_status c ∉ [CHECK_OK; CHECK_SILENT])
         (check_list self).

(** The calls a screen makes on its handler. *)
Inductive call :=
| AddCheck (input_obj : Input) (run_check : view → status)
           (data : option Data)
| UpdateCheckStatus (ref : nat)
| SetEnabled (ref : nat) (value : bool).

Definition perform (self : InputCheckHandler) (c : call)
    : InputCheckHandler :=
  match c with
  | AddCheck i f d => (add_check i f d self).1
  | UpdateCheckStatus ref => update_check_status ref self
  | SetEnabled ref v => set_enabled ref v self
  end.

Definition run (calls : list call) : InputCheckHandler :=
  foldl perform handler_init calls.

(** The check at [ref] has never been run: no call updated it since
    it was added. *)
Definition never_run (ref : nat) (calls : list call) : Prop :=
  UpdateCheckStatus ref ∉ calls.

(** The status of the check at [ref] is [CHECK_OK], if there is one. *)
Definition passes_at (ref : nat) (self : InputCheckHandler) : Prop :=
  ∀ c, check_list self !! ref = Some c → check_status c = CHECK_OK.

End InputChecks.

Arguments mkView {Input Data}.
Arguments mkCheck {Input Data}.
Arguments input_obj {Input Data}.
Arguments run_check {Input Data}.
Arguments data {Input Data}.
Arguments check_status {Input Data}.
Arguments enabled {Input Data}.
Arguments InputCheck_init {Input Data}.
Arguments mkHandler {Input Data}.
Arguments check_list {Input Data}.
Arguments set_status_calls {Input Data}.
Arguments handler_init {Input Data}.
Arguments add_check {Input Data}.
Arguments update_check_status {Input Data}.
Arguments set_enabled {Input Data}.
Arguments failing {Input Data}.
Arguments failed_checks {Input Data}.
Arguments failed_checks_with_message {Input Data}.
Arguments AddCheck {Input Data}.
Arguments UpdateCheckStatus {Input Data}.
Arguments SetEnabled {Input Data}.
Arguments perform {Input Data}.
Arguments run {Input Data}.
Arguments never_run {Input Data}.
Arguments passes_at {Input Data}.

End Helpers.

(** ** Example inputs *)

Module Examples.

Definition user_repo : RepoConfigurationData :=
  mkRepo "base" REPO_ORIGIN_USER true "http://mirror/os" URL_TYPE_BASEURL
         true SSLConfigurationData_new "" true.

Definition old_appstream : RepoConfigurationData :=
  mkRepo "AppStream" REPO_ORIGIN_TREEINFO false "http://old/AppStream"
         URL_TYPE_BASEURL true SSLConfigurationData_new "" false.

Definition new_appstream : RepoConfigurationData :=
  mkRepo "AppStream" REPO_ORIGIN_TREEINFO true "http://new/AppStream"
         URL_TYPE_BASEURL true SSLConfigurationData_new "" false.

(** A treeinfo record with the url of [user_repo]. *)
Definition same_url_appstream : RepoConfigurationData :=
  mkRepo "AppStream" REPO_ORIGIN_TREEINFO true "http://mirror/os"
         URL_TYPE_BASEURL true SSLConfigurationData_new "" false.

(** Two treeinfo records of one name, the first of them disabled. *)
Definition twin_off : RepoConfigurationData :=
  mkRepo "CRB" REPO_ORIGIN_TREEINFO false "http://new/CRB-1"
         URL_TYPE_BASEURL true SSLConfigurationData_new "" false.
Definition twin_on : RepoConfigurationData :=
  mkRepo "CRB" REPO_ORIGIN_TREEINFO true "http://new/CRB-2"
         URL_TYPE_BASEURL true SSLConfigurationData_new "" false.

(** A file system: its directories and, for every file with a name
    that ends in rpm, the directory and the name. The external command
    adds the directory repodata. *)
Record fs := mkFs {
  dirs : list string;
  rpms : list (string * string)
}.

Definition fs_isdir (w : fs) (p : string) : bool := bool_decide (p ∈ dirs w).

Definition fs_glob (w : fs) (pattern : string) : list string :=
  (λ df, df.1 +:+ "/" +:+ df.2) <$>
  filter (λ df, df.1 +:+ "/*rpm" = pattern) (rpms w).

Definition fs_exec (command : string) (args : list string) (w : fs)
    : option fs :=
  match args with
  | [d] => Some (mkFs (dirs w ++ [DriverDisks.join_paths d "repodata"])
                      (rpms w))
  | _ => None
  end.

(** Two driver disks with packages and repodata. *)
Definition two_disks : fs :=
  mkFs ["/run/install/DD-1"; "/run/install/DD-1/repodata";
        "/run/install/DD-2"; "/run/install/DD-2/repodata"]
       [("/run/install/DD-1", "kmod-a.rpm");
        ("/run/install/DD-2", "kmod-b.rpm")].

(** A first directory without packages, no second directory and a third
    directory with packages. *)
Definition gap_disks : fs :=
  mkFs ["/run/install/DD-1"; "/run/install/DD-3"]
       [("/run/install/DD-3", "kmod-c.rpm")].

(** A check of proxies for the examples: a proxy starts with a scheme. *)
Definition proxy_error (proxy : string) : option string :=
  if String.prefix "http://" proxy then None
  else Some "missing scheme".

(** A mirror list of which the url is not set yet. *)
Definition empty_mirrorlist : RepoConfigurationData :=
  set_type URL_TYPE_MIRRORLIST RepoConfigurationData_new.

Definition metalink_repo : RepoConfigurationData :=
  mkRepo "" REPO_ORIGIN_USER true "http://mirror/metalink"
         URL_TYPE_METALINK false (mkSSL "/ca" "/cert" "/key")
         "http://proxy:3128" false.

(** The calls of a screen with two text inputs: both get a check that
    refuses every input with a message, and the first check is run. *)
Definition refuse (v : Helpers.view string unit) : Helpers.status :=
  Some "Required".

Definition screen_calls : list (Helpers.call string unit) :=
  [Helpers.AddCheck "name" refuse None;
   Helpers.AddCheck "password" refuse None;
   Helpers.UpdateCheckStatus 0].

Definition store (l : list RepoConfigurationData) : heap :=
  list_to_map (zip (seq 0 (length l)) l).

(** References 0 and 1 form the list, reference 2 is the batch. *)
Definition merge_store : heap :=
  store [user_repo; old_appstream; new_appstream].
Definition clash_store : heap :=
  store [user_repo; old_appstream; same_url_appstream].
Definition twin_store : heap := store [twin_off; twin_on].

End Examples.

(** ** More of the files: what the further properties speak of *)

Module SourceSwitch.

(** helpers.py, [SourceSwitchHandler.set_source_url]: the configuration
    it builds for the new URL source, [repo_conf = RepoConfigurationData()]
    followed by the three assignments ([proxy or ""] for the last). The
    default of [url_type] is [URL_TYPE_BASEURL] and of [proxy] is [None]. *)
Definition set_source_url_conf (url url_type : string)
    (proxy : option string) : RepoConfigurationData :=
  let repo_conf := RepoConfigurationData_new in
  let repo_conf := set_url url repo_conf in
  let repo_conf := set_type url_type repo_conf in
  let repo_conf := set_proxy (KS.or_empty proxy) repo_conf in
  repo_conf.

End SourceSwitch.

Module DriverDisksMore.

Import DriverDisks.

(** The state a call ends in, with the list of repositories at that
    time. *)
Definition outcome_state {World : Type} (out : @outcome World)
    : @state World :=
  match out with
  | Returned st => st
  | Raised st => st
  end.

(** The events of a turn that finds rpm files and no repodata. *)
Definition createrepo_turn (path : string) (i : nat) : list event :=
  quiet_turn path i ++ [Exec "createrepo_c" [dd_path path i]].

End DriverDisksMore.

Module MoreExamples.

(** A driver disk with a package and without repodata. *)
Definition bare_disk : Examples.fs :=
  Examples.mkFs ["/run/install/DD-1"]
                [("/run/install/DD-1", "kmod-a.rpm")].



End MoreExamples.

Module HelpersMore.

Import Helpers.

(** helpers.py, [InputCheckHandler.checks]: the iterator over all the
    input checks, as the list it runs through. *)
Definition checks {Input Data : Type}
    (self : InputCheckHandler Input Data) : list (InputCheck Input Data) :=
  check_list self.

(** The number of calls of [add_check] among the calls. *)
Definition is_add {Input Data : Type} (k : call Input Data) : bool :=
  match k with
  | AddCheck _ _ _ => true
  | _ => false
  end.

Definition added {Input Data : Type} (calls : list (call Input Data))
    : nat :=
  length (filter (λ k, is_add k = true) calls).

(** The check with another value of its enabled flag. *)
Definition with_enabled {Input Data : Type} (value : bool)
    (c : InputCheck Input Data) : InputCheck Input Data :=
  mkCheck (input_obj c) (run_check c) (data c) (check_status c) value.

(** What [update_check_status] calls the check function with. *)
Definition view_of {Input Data : Type} (c : InputCheck Input Data)
    : view Input Data :=
  mkView (input_obj c) (data c) (check_status c) (enabled c).

(** A check function that refuses without a message. *)
Definition refuse_quietly (v : view string unit) : status := Some "".

Definition one_check : InputCheckHandler string unit :=
  (add_check "name" Examples.refuse None handler_init).1.

End HelpersMore.

(** * Properties *)

(** ** The merge of treeinfo repositories *)

Module RepositoriesSpec.

Lemma set_enabled_idem b v : set_enabled b (set_enabled b v) = set_enabled b v.
Proof. reflexivity. Qed.

Lemma set_enabled_same v : set_enabled (enabled v) v = v.
Proof. by destruct v. Qed.

Lemma adjust_idem D v : adjust D (adjust D v) = adjust D v.
Proof.
  unfold adjust. destruct (decide (name v ∈ D)) as [Hin|Hout].
  - by rewrite decide_True.
  - by rewrite decide_False.
Qed.

Lemma adjust_fields D v :
  name (adjust D v) = name v ∧ origin (adjust D v) = origin v ∧
  url (adjust D v) = url v.
Proof. unfold adjust. by destruct (decide _). Qed.

Lemma disable_if_listed_lookup D h t r :
  disable_if_listed D h t !!! r =
  if decide (r = t) then adjust D (h !!! r) else h !!! r.
Proof.
  unfold disable_if_listed, adjust, setattr.
  destruct (decide (r = t)) as [->|Hne].
  - destruct (decide (name (h !!! t) ∈ D)); [|done].
    by rewrite lookup_total_insert_eq.
  - destruct (decide (name (h !!! t) ∈ D)); [|done].
    rewrite lookup_total_insert_ne; [done|congruence].
Qed.

(** The store after the loop: the records of [T] are adjusted, the
    others are as before. *)
Lemma disable_loop_lookup D T h r :
  foldl (disable_if_listed D) h T !!! r =
  if decide (r ∈ T) then adjust D (h !!! r) else h !!! r.
Proof.
  revert h. induction T as [|t T IH]; intros h; cbn [foldl].
  - by destruct (decide (r ∈ [])) as [?%elem_of_nil|].
  - rewrite IH, disable_if_listed_lookup.
    destruct (decide (r = t)) as [Heq|Hne].
    + rewrite (decide_True (P := r ∈ t :: T))
        by (subst; apply list_elem_of_here).
      destruct (decide (r ∈ T)); [apply adjust_idem|done].
    + destruct (decide (r ∈ T)) as [Hin|Hout].
      * rewrite decide_True; [done|]. by apply list_elem_of_further.
      * rewrite decide_False; [done|].
        by intros [?|?]%elem_of_cons.
Qed.

Lemma append_loop {A} (T L : list A) :
  foldl (λ acc r, acc ++ [r]) L T = L ++ T.
Proof.
  revert L. induction T as [|t T IH]; intros L; cbn [foldl].
  - by rewrite app_nil_r.
  - by rewrite IH, <- app_assoc.
Qed.

Lemma filter_all {A} (P : A → Prop) `{∀ x, Decision (P x)} (l : list A) :
  Forall P l → filter P l = l.
Proof.
  induction 1 as [|x l Hx _ IH]; [done|].
  by rewrite filter_cons_True, IH.
Qed.

Lemma filter_none {A} (P : A → Prop) `{∀ x, Decision (P x)} (l : list A) :
  Forall (λ x, ¬ P x) l → filter P l = [].
Proof.
  induction 1 as [|x l Hx _ IH]; [done|].
  by rewrite filter_cons_False.
Qed.

Lemma elem_of_disabled_names h L n :
  n ∈ disabled_names h L ↔ previously_disabled h L n.
Proof.
  unfold disabled_names, previously_disabled.
  rewrite elem_of_list_to_set, list_elem_of_fmap.
  setoid_rewrite list_elem_of_filter. split.
  - intros (l & -> & [Hti Hen] & Hin). by exists l.
  - intros (l & Hin & Hti & Hen & <-). by exists l.
Qed.

Lemma elem_of_existing_urls h L u :
  u ∈ existing_urls h L ↔ declared_by_user h L u.
Proof.
  unfold existing_urls, declared_by_user.
  rewrite elem_of_list_to_set, list_elem_of_fmap.
  setoid_rewrite list_elem_of_filter. split.
  - intros (l & -> & [Hti Hne] & Hin). by exists l.
  - intros (l & Hin & Hti & Hne & <-). by exists l.
Qed.

Section Loop.

Variables (D : gset string) (T : list loc) (h : heap).

Lemma loop_name r :
  name (foldl (disable_if_listed D) h T !!! r) = name (h !!! r).
Proof.
  rewrite disable_loop_lookup. destruct (decide _); [|done].
  apply adjust_fields.
Qed.

Lemma loop_origin r :
  origin (foldl (disable_if_listed D) h T !!! r) = origin (h !!! r).
Proof.
  rewrite disable_loop_lookup. destruct (decide _); [|done].
  apply adjust_fields.
Qed.

Lemma loop_url r :
  url (foldl (disable_if_listed D) h T !!! r) = url (h !!! r).
Proof.
  rewrite disable_loop_lookup. destruct (decide _); [|done].
  apply adjust_fields.
Qed.

Lemma loop_is_treeinfo r :
  is_treeinfo (foldl (disable_if_listed D) h T) r ↔ is_treeinfo h r.
Proof. unfold is_treeinfo. by rewrite loop_origin. Qed.

Lemma loop_existing_urls L :
  existing_urls (foldl (disable_if_listed D) h T) L = existing_urls h L.
Proof.
  unfold existing_urls. f_equal.
  rewrite (list_filter_iff _
             (λ r, ¬ is_treeinfo h r ∧ url (h !!! r) ≠ "")).
  - apply list_fmap_ext. intros _ r _. apply loop_url.
  - intros r. by rewrite loop_is_treeinfo, loop_url.
Qed.

End Loop.

(** The call without its local names: the store after the loop and the
    two filtered lists, one after the other. *)
Lemma update_unfold L T h :
  update_treeinfo_repositories L T h =
  (foldl (disable_if_listed (disabled_names h L)) h T,
   filter (λ r, ¬ is_treeinfo h r) L ++
   filter (λ r, url (h !!! r) ∉ existing_urls h L) T).
Proof.
  unfold update_treeinfo_repositories. cbv zeta.
  rewrite append_loop, loop_existing_urls. f_equal. f_equal.
  - apply list_filter_iff. intros r. by rewrite loop_is_treeinfo.
  - apply list_filter_iff. intros r. by rewrite loop_url.
Qed.

Lemma update_store L T h r :
  (update_treeinfo_repositories L T h).1 !!! r =
  if decide (r ∈ T) then adjust (disabled_names h L) (h !!! r)
  else h !!! r.
Proof. rewrite update_unfold. apply disable_loop_lookup. Qed.

Lemma update_is_treeinfo L T h r :
  is_treeinfo (update_treeinfo_repositories L T h).1 r ↔ is_treeinfo h r.
Proof. rewrite update_unfold. apply loop_is_treeinfo. Qed.

Lemma update_store_outside L T h r :
  Forall (is_treeinfo h) T → ¬ is_treeinfo h r →
  (update_treeinfo_repositories L T h).1 !!! r = h !!! r.
Proof.
  intros HT Hr. rewrite update_store, decide_False; [done|].
  intros Hin. by eapply Hr, Forall_forall.
Qed.

Lemma update_result L T h :
  (update_treeinfo_repositories L T h).2 = kept h L ++ surviving h L T.
Proof. by rewrite update_unfold. Qed.

Lemma elem_of_surviving h L T t :
  t ∈ surviving h L T ↔ t ∈ T ∧ ¬ declared_by_user h L (url (h !!! t)).
Proof.
  unfold surviving. rewrite list_elem_of_filter, elem_of_existing_urls.
  tauto.
Qed.

Lemma elem_of_kept h L r : r ∈ kept h L ↔ r ∈ L ∧ ¬ is_treeinfo h r.
Proof. unfold kept. rewrite list_elem_of_filter. tauto. Qed.

Lemma kept_after L T h :
  Forall (λ r, ¬ is_treeinfo (update_treeinfo_repositories L T h).1 r)
         (kept h L).
Proof.
  apply Forall_forall. intros r [_ Hr]%elem_of_kept.
  by rewrite update_is_treeinfo.
Qed.

Lemma surviving_after L T h :
  Forall (is_treeinfo h) T →
  Forall (is_treeinfo (update_treeinfo_repositories L T h).1)
         (surviving h L T).
Proof.
  intros HT. apply Forall_forall. intros t [Ht _]%elem_of_surviving.
  rewrite update_is_treeinfo. by eapply Forall_forall in HT.
Qed.

(** C1, as the claim states it, fails where the batch holds a record of
    the list again, as in a second pass over the list that a first pass
    returned: the treeinfo record 2 of the list is in the result. *)
Lemma treeinfo_record_of_list_returns_with_batch :
  let p1 := update_treeinfo_repositories [0; 1] [2] Examples.merge_store in
  let h := p1.1 in
  let L := p1.2 in
  let T := [2] in
  L = [0; 2] ∧ Forall (is_treeinfo h) T ∧
  2 ∈ L ∧ is_treeinfo h 2 ∧
  2 ∈ (update_treeinfo_repositories L T h).2.
Proof.
  split_and!.
  - by vm_compute.
  - by repeat constructor.
  - vm_compute. by apply list_elem_of_further, list_elem_of_here.
  - by vm_compute.
  - vm_compute. by apply list_elem_of_further, list_elem_of_here.
Qed.

(** C1, amended: for a batch [T] of treeinfo records, the call returns the
    records of [L] that do not come from a treeinfo file, in their order
    and as they were, followed by the surviving records of [T] in their
    order (with the enabled flag as the loop leaves it); no treeinfo
    record of [L] is taken over from [L], such a record is in the result
    only as a survivor of [T], so the treeinfo records of the result are
    exactly the survivors of [T]. *)
Theorem update_replaces_treeinfo (L T : list loc) (h : heap) :
  Forall (is_treeinfo h) T →
  let h' := (update_treeinfo_repositories L T h).1 in
  let R := (update_treeinfo_repositories L T h).2 in
  R = filter (λ r, ¬ is_treeinfo h r) L ++
      filter (λ t, url (h !!! t) ∉ existing_urls h L) T ∧
  contents h' (kept h L) = contents h (kept h L) ∧
  (∀ r, r ∈ L → is_treeinfo h r → r ∉ kept h L) ∧
  (∀ r, r ∈ L → is_treeinfo h r → r ∈ R → r ∈ surviving h L T) ∧
  Forall (λ r, ¬ is_treeinfo h' r) (kept h L) ∧
  filter (is_treeinfo h') R = surviving h L T ∧
  (∀ t, t ∈ surviving h L T ↔
        t ∈ T ∧ ¬ declared_by_user h L (url (h !!! t))) ∧
  contents h' (surviving h L T)
    = adjust (disabled_names h L) <$> contents h (surviving h L T).
Proof.
  intros HT h' R.
  assert (HR : R = kept h L ++ surviving h L T) by apply update_result.
  split_and!.
  - done.
  - unfold contents. apply list_fmap_ext.
    intros _ r [_ Hr]%list_elem_of_lookup_2%elem_of_kept.
    by apply update_store_outside.
  - intros r _ Hti [_ Hr]%elem_of_kept. done.
  - intros r _ Hti. rewrite HR, elem_of_app.
    by intros [[_ Hr]%elem_of_kept|?].
  - apply kept_after.
  - rewrite HR, filter_app, (filter_none _ (kept h L)),
      (filter_all _ (surviving h L T)).
    + done.
    + by apply surviving_after.
    + apply kept_after.
  - apply elem_of_surviving.
  - unfold contents. rewrite <- list_fmap_compose. apply list_fmap_ext.
    intros _ t [Ht _]%list_elem_of_lookup_2%elem_of_surviving.
    unfold h'. rewrite update_store. by rewrite decide_True.
Qed.

Lemma update_replaces_treeinfo_witness :
  Forall (is_treeinfo Examples.merge_store) [2] ∧
  (update_treeinfo_repositories [0; 1] [2] Examples.merge_store).2
    = [0; 2].
Proof.
  assert (HT : Forall (is_treeinfo Examples.merge_store) [2]).
  { by repeat constructor. }
  split; [done|].
  destruct (update_replaces_treeinfo [0; 1] [2] Examples.merge_store HT)
    as (HR & _).
  rewrite HR. by vm_compute.
Defined.

(** C2, as the claim states it, fails: a record of the batch with the
    name of a disabled treeinfo record and the url of a record of a user
    is not in the result. *)
Lemma disabled_name_dropped_with_user_url :
  let h := Examples.clash_store in
  2 ∈ [2] ∧
  previously_disabled h [0; 1] (name (h !!! 2)) ∧
  2 ∉ (update_treeinfo_repositories [0; 1] [2] h).2.
Proof.
  split_and!.
  - apply list_elem_of_here.
  - exists 1. split_and!; [|done..].
    by apply list_elem_of_further, list_elem_of_here.
  - rewrite update_unfold. vm_compute. by intros [?|?%elem_of_nil]%elem_of_cons.
Qed.

(** C2, amended: a record of the batch with the name of a treeinfo
    record of [L] that is not enabled has its enabled flag forced to
    false, whatever it was, and nothing else changes in it; a record of
    the batch with another name is left as it is. Either is in the result
    unless its url is the url of a record of a user: then it is dropped
    from the batch that is appended, and a record of a treeinfo batch is
    not in the result at all. *)
Theorem disabled_name_stays_disabled (L T : list loc) (h : heap) (t : loc) :
  t ∈ T →
  let h' := (update_treeinfo_repositories L T h).1 in
  let R := (update_treeinfo_repositories L T h).2 in
  (previously_disabled h L (name (h !!! t)) →
     h' !!! t = set_enabled false (h !!! t)) ∧
  (¬ previously_disabled h L (name (h !!! t)) →
     h' !!! t = h !!! t) ∧
  (¬ declared_by_user h L (url (h !!! t)) → t ∈ R) ∧
  R = kept h L ++ surviving h L T ∧
  (declared_by_user h L (url (h !!! t)) →
     (t ∉ surviving h L T) ∧ (is_treeinfo h t → t ∉ R)).
Proof.
  intros Ht h' R.
  assert (HR : R = kept h L ++ surviving h L T) by apply update_result.
  unfold h', adjust. split_and!.
  - intros Hd%elem_of_disabled_names.
    rewrite update_store, decide_True by done.
    unfold adjust. by rewrite decide_True.
  - rewrite <- elem_of_disabled_names. intros Hd.
    rewrite update_store, decide_True by done.
    unfold adjust. by rewrite decide_False.
  - intros Hu. rewrite HR. apply elem_of_app. right.
    by apply elem_of_surviving.
  - done.
  - intros Hu.
    assert (Hout : t ∉ surviving h L T).
    { by intros [_ ?]%elem_of_surviving. }
    split; [done|]. intros Hti. rewrite HR, elem_of_app.
    by intros [[_ ?]%elem_of_kept|?].
Qed.

Lemma disabled_name_stays_disabled_witness :
  2 ∈ [2] ∧
  (update_treeinfo_repositories [0; 1] [2] Examples.merge_store).1 !!! 2
    = set_enabled false Examples.new_appstream ∧
  2 ∈ (update_treeinfo_repositories [0; 1] [2] Examples.merge_store).2 ∧
  (update_treeinfo_repositories [0; 1] [2] Examples.clash_store).1 !!! 2
    = set_enabled false Examples.same_url_appstream ∧
  2 ∉ (update_treeinfo_repositories [0; 1] [2] Examples.clash_store).2.
Proof.
  assert (Ht : 2 ∈ [2]) by apply list_elem_of_here.
  assert (H1 : 1 ∈ [0; 1])
    by by apply list_elem_of_further, list_elem_of_here.
  split; [done|].
  destruct (disabled_name_stays_disabled [0; 1] [2] Examples.merge_store 2 Ht)
    as (Hd & _ & Hin & _).
  destruct (disabled_name_stays_disabled [0; 1] [2] Examples.clash_store 2 Ht)
    as (Hd' & _ & _ & _ & Hdrop).
  split_and!.
  - apply Hd. exists 1. by split_and!.
  - apply Hin. intros (l & Hl & Hnt & _ & Hurl).
    apply elem_of_cons in Hl as [->|Hl]; [by vm_compute in Hurl|].
    apply list_elem_of_singleton in Hl as ->. by apply Hnt.
  - apply Hd'. exists 1. by split_and!.
  - apply Hdrop; [|done]. exists 0.
    split_and!; [apply list_elem_of_here|done..].
Defined.

(** C3: for a batch [T] of treeinfo records, a record of [T] whose url
    is the url, not empty, of a record of [L] that does not come from a
    treeinfo file is not in the result, and no treeinfo record of the
    result has that url; every other record of [T] is in the result. *)
Theorem user_url_excludes_treeinfo (L T : list loc) (h : heap) (t : loc) :
  Forall (is_treeinfo h) T → t ∈ T →
  let h' := (update_treeinfo_repositories L T h).1 in
  let R := (update_treeinfo_repositories L T h).2 in
  (declared_by_user h L (url (h !!! t)) →
     (t ∉ R) ∧
     (∀ r, r ∈ R → url (h' !!! r) = url (h !!! t) →
           ¬ is_treeinfo h' r)) ∧
  (¬ declared_by_user h L (url (h !!! t)) → t ∈ R).
Proof.
  intros HT Ht h' R.
  assert (HR : R = kept h L ++ surviving h L T) by apply update_result.
  split.
  - intros Hu. split.
    + rewrite HR, elem_of_app. intros [[_ Hk]%elem_of_kept|Hs].
      * apply Hk. by eapply Forall_forall in HT.
      * by apply elem_of_surviving in Hs as [_ Hs].
    + intros r. rewrite HR, elem_of_app. intros [Hk|Hs] Hurl.
      * pose proof (kept_after L T h) as Hafter.
        by eapply Forall_forall in Hafter.
      * apply elem_of_surviving in Hs as [_ Hs]. destruct Hs.
        unfold h' in Hurl. rewrite update_unfold in Hurl. cbn [fst] in Hurl.
        rewrite loop_url in Hurl. by rewrite Hurl.
  - intros Hu. rewrite HR, elem_of_app. right. by apply elem_of_surviving.
Qed.

Lemma user_url_excludes_treeinfo_witness :
  Forall (is_treeinfo Examples.clash_store) [2] ∧ 2 ∈ [2] ∧
  2 ∉ (update_treeinfo_repositories [0; 1] [2] Examples.clash_store).2.
Proof.
  assert (HT : Forall (is_treeinfo Examples.clash_store) [2]).
  { by repeat constructor. }
  assert (Ht : 2 ∈ [2]) by apply list_elem_of_here.
  split_and!; [done..|].
  destruct (user_url_excludes_treeinfo [0; 1] [2] Examples.clash_store 2 HT Ht)
    as (Hd & _).
  apply Hd. exists 0. split_and!; [|done..].
  apply list_elem_of_here.
Defined.

Lemma NoDup_fmap_elem_inj {A B} (f : A → B) (l : list A) x y :
  NoDup (f <$> l) → x ∈ l → y ∈ l → f x = f y → x = y.
Proof.
  induction l as [|a l IH]; csimpl.
  - by intros _ ?%elem_of_nil.
  - intros [Ha Hl]%NoDup_cons [->|Hx]%elem_of_cons [->|Hy]%elem_of_cons Hf.
    + done.
    + destruct Ha. rewrite Hf. by apply list_elem_of_fmap_2.
    + destruct Ha. rewrite <- Hf. by apply list_elem_of_fmap_2.
    + by apply IH.
Qed.

(** A second pass with the same batch returns the references of the
    first pass, whatever the names are: the part taken from the list and
    the set of existing urls are those of the first pass. *)
Lemma second_pass_same_list (L T : list loc) (h : heap) :
  Forall (is_treeinfo h) T →
  let p1 := update_treeinfo_repositories L T h in
  (update_treeinfo_repositories p1.2 T p1.1).2 = p1.2.
Proof.
  intros HT p1. set (h1 := p1.1). set (R1 := p1.2).
  assert (HR1 : R1 = kept h L ++ surviving h L T) by apply update_result.
  assert (Hk1 : Forall (λ r, ¬ is_treeinfo h1 r) (kept h L))
    by apply kept_after.
  assert (Hs1 : Forall (is_treeinfo h1) (surviving h L T))
    by by apply surviving_after.
  assert (Hurl : ∀ r, url (h1 !!! r) = url (h !!! r)).
  { intros r. unfold h1, p1. rewrite update_unfold. apply loop_url. }
  assert (Hdecl : ∀ u, declared_by_user h1 R1 u ↔ declared_by_user h L u).
  { intros u. split; intros (l & Hl & Hti & Hne & Hu).
    - rewrite HR1 in Hl. apply elem_of_app in Hl as [Hl|Hl].
      + apply elem_of_kept in Hl as [Hl Hti'].
        exists l. by rewrite <- Hurl.
      + by eapply Forall_forall in Hs1.
    - exists l. rewrite !Hurl. split_and!; [| |done..].
      + rewrite HR1. apply elem_of_app. left. by apply elem_of_kept.
      + unfold h1, p1. by rewrite update_is_treeinfo. }
  rewrite update_result. rewrite HR1 at 3. f_equal.
  - unfold kept at 1. rewrite HR1, filter_app.
    rewrite (filter_all _ (kept h L)) by done.
    rewrite (filter_none _ (surviving h L T)), app_nil_r; [done|].
    eapply Forall_impl; [exact Hs1|]. tauto.
  - apply list_filter_iff. intros t.
    by rewrite !elem_of_existing_urls, Hdecl, Hurl.
Qed.

(** C4, as the claim states it, fails: with two treeinfo records of one
    name in the batch, the first of them disabled, the first pass leaves
    the second one enabled and the second pass disables it. *)
Lemma second_pass_disables_twin :
  let h := Examples.twin_store in
  let p1 := update_treeinfo_repositories [] [0; 1] h in
  let p2 := update_treeinfo_repositories p1.2 [0; 1] p1.1 in
  Forall (is_treeinfo h) [0; 1] ∧
  contents p1.1 p1.2 = [Examples.twin_off; Examples.twin_on] ∧
  contents p2.1 p2.2
    = [Examples.twin_off; set_enabled false Examples.twin_on] ∧
  contents p2.1 p2.2 ≠ contents p1.1 p1.2.
Proof.
  split_and!.
  - by repeat constructor.
  - by vm_compute.
  - by vm_compute.
  - by vm_compute.
Qed.

(** C4, amended: for a batch [T] of treeinfo records with names that
    differ from each other, a second pass with the same batch returns
    the list of the first pass and leaves every record as the first pass
    left it. *)
Theorem update_idempotent_distinct_names (L T : list loc) (h : heap) :
  Forall (is_treeinfo h) T →
  NoDup ((λ t, name (h !!! t)) <$> T) →
  let p1 := update_treeinfo_repositories L T h in
  let p2 := update_treeinfo_repositories p1.2 T p1.1 in
  p2.2 = p1.2 ∧
  (∀ r, p2.1 !!! r = p1.1 !!! r) ∧
  contents p2.1 p2.2 = contents p1.1 p1.2.
Proof.
  intros HT Hnames p1 p2.
  set (h1 := p1.1). set (R1 := p1.2).
  assert (HR1 : R1 = kept h L ++ surviving h L T) by apply update_result.
  assert (Hk1 : Forall (λ r, ¬ is_treeinfo h1 r) (kept h L))
    by apply kept_after.
  assert (Hname : ∀ r, name (h1 !!! r) = name (h !!! r)).
  { intros r. unfold h1, p1. rewrite update_unfold. apply loop_name. }
  assert (Hstore : ∀ r, p2.1 !!! r = h1 !!! r).
  { intros r. unfold p2. fold h1 R1. rewrite update_store.
    destruct (decide (r ∈ T)) as [Hr|]; [|done].
    unfold adjust.
    destruct (decide (name (h1 !!! r) ∈ disabled_names h1 R1)) as [Hd|];
      [|done].
    apply elem_of_disabled_names in Hd as (l & Hl & Hti & Hen & Hn).
    rewrite HR1 in Hl. apply elem_of_app in Hl as [Hl|Hl].
    { by eapply Forall_forall in Hk1. }
    apply elem_of_surviving in Hl as [Hl _].
    assert (l = r) as ->.
    { eapply (NoDup_fmap_elem_inj (λ t, name (h !!! t))); [done..|].
      by rewrite <- !Hname. }
    rewrite <- Hen. apply set_enabled_same. }
  assert (HR2 : p2.2 = R1) by by apply second_pass_same_list.
  split_and!; [done..|].
  rewrite HR2. unfold contents. apply list_fmap_ext. intros _ r _.
  apply Hstore.
Qed.

Lemma update_idempotent_distinct_names_witness :
  let h := Examples.merge_store in
  let p1 := update_treeinfo_repositories [0; 1] [2] h in
  let p2 := update_treeinfo_repositories p1.2 [2] p1.1 in
  Forall (is_treeinfo h) [2] ∧
  NoDup ((λ t, name (h !!! t)) <$> [2]) ∧
  contents p2.1 p2.2 = contents p1.1 p1.2.
Proof.
  assert (HT : Forall (is_treeinfo Examples.merge_store) [2]).
  { by repeat constructor. }
  assert (HN : NoDup ((λ t, name (Examples.merge_store !!! t)) <$> [2])).
  { apply NoDup_singleton. }
  split_and!; [done..|].
  by destruct (update_idempotent_distinct_names [0; 1] [2]
                 Examples.merge_store HT HN) as (_ & _ & Hc).
Defined.

Lemma setattr_lookup_total f r (h : heap) :
  setattr f r h !!! r = f (h !!! r).
Proof. apply lookup_total_insert_eq. Qed.

Lemma setattr_lookup_ne f r r' (h : heap) :
  r' ≠ r → setattr f r h !! r' = h !! r'.
Proof. intros Hne. by apply lookup_insert_ne. Qed.

(** C5: the generated record is a new one: it is the template with
    origin TREEINFO, the name, url and enabled flag of the metadata,
    type BASEURL and installation_enabled false; proxy, certificate
    paths and certificate verification are those of the template; the
    template and every other record of the store are as before. *)
Theorem generate_treeinfo_repository_overrides (repo_data : loc)
    (repo_md : TreeInfoRepoMetadata) (h : heap) :
  repo_data ∈ dom h →
  let h' := (generate_treeinfo_repository repo_data repo_md h).1 in
  let repo := (generate_treeinfo_repository repo_data repo_md h).2 in
  (repo ∉ dom h) ∧ repo ≠ repo_data ∧
  h' !!! repo =
    {| name := md_name repo_md;
       origin := REPO_ORIGIN_TREEINFO;
       enabled := md_enabled repo_md;
       url := md_url repo_md;
       type := URL_TYPE_BASEURL;
       ssl_verification_enabled :=
         ssl_verification_enabled (h !!! repo_data);
       ssl_configuration := ssl_configuration (h !!! repo_data);
       proxy := proxy (h !!! repo_data);
       installation_enabled := false |} ∧
  h' !!! repo_data = h !!! repo_data ∧
  (∀ r, r ≠ repo → h' !! r = h !! r).
Proof.
  intros Hin h' repo.
  assert (Hrepo : repo = fresh (dom h)) by done.
  assert (Hfresh : repo ∉ dom h) by (rewrite Hrepo; apply is_fresh).
  assert (Hne : repo ≠ repo_data) by (intros ->; done).
  assert (Hother : ∀ r, r ≠ repo → h' !! r = h !! r).
  { intros r Hr. unfold h', generate_treeinfo_repository, deepcopy.
    cbn [fst]. fold repo.
    rewrite !setattr_lookup_ne by done. by apply lookup_insert_ne. }
  split_and!; [done..| | |done].
  - unfold h', generate_treeinfo_repository, deepcopy. cbn [fst].
    fold repo. rewrite !setattr_lookup_total.
    by rewrite lookup_total_insert_eq.
  - unfold lookup_total, map_lookup_total. by rewrite Hother.
Qed.

Lemma generate_treeinfo_repository_overrides_witness :
  let h := Examples.store [Examples.user_repo] in
  let md := mkMd "AppStream" "http://mirror/AppStream" true in
  0 ∈ dom h ∧
  (generate_treeinfo_repository 0 md h).1
    !!! (generate_treeinfo_repository 0 md h).2
  = mkRepo "AppStream" REPO_ORIGIN_TREEINFO true "http://mirror/AppStream"
           URL_TYPE_BASEURL true SSLConfigurationData_new "" false.
Proof.
  assert (Hin : 0 ∈ dom (Examples.store [Examples.user_repo])).
  { apply elem_of_dom. by eexists. }
  split; [done|].
  by destruct (generate_treeinfo_repository_overrides 0
                 (mkMd "AppStream" "http://mirror/AppStream" true)
                 (Examples.store [Examples.user_repo]) Hin)
    as (_ & _ & Hnew & _).
Defined.

End RepositoriesSpec.


(** ** The scan for driver disks *)

Module DriverDisksSpec.

Import DriverDisks.

Lemma append_cons (c : ascii) (s t : string) :
  String c s +:+ t = String c (s +:+ t).
Proof. reflexivity. Qed.

Lemma append_assoc (s1 s2 s3 : string) :
  (s1 +:+ s2) +:+ s3 = s1 +:+ (s2 +:+ s3).
Proof.
  induction s1 as [|c s1 IH]; [done|].
  by rewrite !append_cons, IH.
Qed.

Lemma length_append (s1 s2 : string) :
  String.length (s1 +:+ s2) = String.length s1 + String.length s2.
Proof.
  induction s1 as [|c s1 IH]; [done|].
  rewrite append_cons. simpl. by rewrite IH.
Qed.

Lemma append_inj_r (t s1 s2 : string) : s1 +:+ t = s2 +:+ t → s1 = s2.
Proof.
  revert s2. induction s1 as [|c s1 IH]; intros [|d s2] Heq.
  - done.
  - apply (f_equal String.length) in Heq.
    rewrite !length_append in Heq. simpl in Heq. lia.
  - apply (f_equal String.length) in Heq.
    rewrite !length_append in Heq. simpl in Heq. lia.
  - rewrite !append_cons in Heq. injection Heq as -> Heq.
    f_equal. by apply IH.
Qed.

Lemma all_digits_append (s1 s2 : string) :
  all_digits (s1 +:+ s2) = all_digits s1 && all_digits s2.
Proof.
  induction s1 as [|c s1 IH]; [done|].
  rewrite append_cons. simpl. rewrite <- andb_assoc. by f_equal.
Qed.

Lemma pretty_N_char_digit (x : N) : is_digit (pretty_N_char x) = true.
Proof. unfold pretty_N_char. by repeat case_match. Qed.

Lemma pretty_N_go_digits (x : N) (s : string) :
  all_digits s = true → all_digits (pretty_N_go x s) = true.
Proof.
  revert s. induction (N.lt_wf_0 x) as [x _ IH]; intros s Hs.
  assert (x = 0 ∨ 0 < x)%N as [->|Hx] by lia.
  - by rewrite pretty_N_go_0.
  - rewrite pretty_N_go_step by done. apply IH.
    + by apply N.div_lt.
    + simpl. by rewrite pretty_N_char_digit, Hs.
Qed.

Lemma pretty_nat_digits (i : nat) : all_digits (pretty i) = true.
Proof.
  unfold pretty, pretty_nat, pretty, pretty_N.
  destruct (decide _); [done|]. by apply pretty_N_go_digits.
Qed.

Lemma dd_path_inj path i j : dd_path path i = dd_path path j → i = j.
Proof.
  unfold dd_path, join_paths, dd_name. intros Heq.
  do 3 apply String.app_inj in Heq. by apply pretty_nat_inj.
Qed.

Lemma dd_path_suffix_inj path t i j :
  dd_path path i +:+ t = dd_path path j +:+ t → i = j.
Proof. intros Heq%append_inj_r. by eapply dd_path_inj. Qed.

Lemma dd_path_not_repodata path i j :
  dd_path path i ≠ join_paths (dd_path path j) "repodata".
Proof.
  unfold dd_path, join_paths, dd_name. intros Heq.
  rewrite !append_assoc in Heq. do 3 apply String.app_inj in Heq.
  apply (f_equal all_digits) in Heq.
  rewrite all_digits_append, !pretty_nat_digits in Heq. done.
Qed.

(** An event belongs to the turn of one index only. *)
Lemma about_inj path i j e : about path i e → about path j e → i = j.
Proof.
  unfold about.
  intros [-> | [-> | [-> | ->]]] [Hj|[Hj|[Hj|Hj]]]; try discriminate Hj;
    injection Hj as Hj.
  - by eapply dd_path_inj.
  - by destruct (dd_path_not_repodata path i j).
  - by eapply dd_path_suffix_inj.
  - symmetry in Hj. by destruct (dd_path_not_repodata path j i).
  - unfold join_paths in Hj. by eapply dd_path_suffix_inj.
  - by eapply dd_path_inj.
Qed.

Lemma quiet_turn_about path i : Forall (about path i) (quiet_turn path i).
Proof. unfold about. repeat constructor; tauto. Qed.

Lemma quiet_turns_not_invoked path (l : list nat) e :
  ¬ invoked (flat_map (quiet_turn path) l ++ [IsDir e]).
Proof.
  intros (c & a & [Hin|Hin]%elem_of_app).
  - apply list_elem_of_In, in_flat_map in Hin as (i & _ & Hin).
    apply list_elem_of_In in Hin. unfold quiet_turn in Hin.
    repeat (apply elem_of_cons in Hin as [Hin|Hin]; [done|]).
    by apply elem_of_nil in Hin.
  - by apply list_elem_of_singleton in Hin.
Qed.

Section ScanSpec.

Context {World : Type}.
Variable isdir : World → string → bool.
Variable glob : World → string → list string.
Variable execWithRedirect : string → list string → World → option World.

Local Abbreviation body := (body isdir glob execWithRedirect).
Local Abbreviation scan := (scan isdir glob execWithRedirect).
Local Abbreviation reaches := (reaches isdir glob execWithRedirect).
Local Abbreviation generate_driver_disk_repositories :=
  (generate_driver_disk_repositories isdir glob execWithRedirect).

(** The three ways through the body that the claims are about. *)
Lemma body_missing path i (st : state) :
  isdir (world st) (dd_path path i) = false →
  body path i st = (Break, log (IsDir (dd_path path i)) st).
Proof.
  intros Hd. unfold DriverDisks.body, log. cbn [world trace repositories].
  fold (dd_path path i). by rewrite Hd.
Qed.

Lemma body_no_rpm path i (st : state) :
  isdir (world st) (dd_path path i) = true →
  glob (world st) (dd_path path i +:+ "/*rpm") = [] →
  body path i st =
  (Continue,
   mkState (world st)
           (trace st ++ [IsDir (dd_path path i)]
                     ++ [Glob (dd_path path i +:+ "/*rpm")])
           (repositories st)).
Proof.
  intros Hd Hg. unfold DriverDisks.body, log.
  cbn [world trace repositories].
  fold (dd_path path i). rewrite Hd, Hg. cbn [negb].
  by rewrite <- app_assoc.
Qed.

Lemma body_ready path i (st : state) :
  isdir (world st) (dd_path path i) = true →
  glob (world st) (dd_path path i +:+ "/*rpm") ≠ [] →
  isdir (world st) (join_paths (dd_path path i) "repodata") = true →
  body path i st =
  (Continue,
   mkState (world st) (trace st ++ quiet_turn path i)
           (repositories st ++ [dd_repo path i])).
Proof.
  intros Hd Hg Hr. unfold DriverDisks.body, log.
  cbn [world trace repositories].
  fold (dd_path path i). rewrite Hd, Hr. cbn [negb].
  destruct (glob (world st) (dd_path path i +:+ "/*rpm")); [done|].
  cbn [world trace repositories]. unfold quiet_turn.
  by rewrite <- !app_assoc.
Qed.

(** Whatever the body does, it starts with the question for the
    directory of its index and asks about that index only. *)
Lemma body_trace path i (st st' : state) c :
  body path i st = (c, st') →
  ∃ evs, trace st' = trace st ++ IsDir (dd_path path i) :: evs ∧
         Forall (about path i) (IsDir (dd_path path i) :: evs).
Proof.
  unfold DriverDisks.body, log. cbn [world trace repositories].
  fold (dd_path path i).
  destruct (isdir (world st) (dd_path path i)); cbn [negb].
  2:{ intros [= <- <-]. exists []. split; [done|].
      unfold about. repeat constructor; tauto. }
  destruct (glob (world st) (dd_path path i +:+ "/*rpm")).
  { intros [= <- <-]. exists [Glob (dd_path path i +:+ "/*rpm")].
    cbn [trace]. rewrite <- app_assoc. split; [done|].
    unfold about. repeat constructor; tauto. }
  destruct (isdir (world st) (join_paths (dd_path path i) "repodata"));
    cbn [negb world trace repositories].
  { intros [= <- <-]. cbn [trace].
    exists [Glob (dd_path path i +:+ "/*rpm");
            IsDir (join_paths (dd_path path i) "repodata")].
    rewrite <- !app_assoc. split; [done|].
    unfold about. repeat constructor; tauto. }
  destruct (execWithRedirect _ _ _); intros [= <- <-]; cbn [trace];
    exists [Glob (dd_path path i +:+ "/*rpm");
            IsDir (join_paths (dd_path path i) "repodata");
            Exec "createrepo_c" [dd_path path i]];
    rewrite <- !app_assoc; (split; [done|]);
    unfold about; repeat constructor; tauto.
Qed.

(** The scan from a state that was reached goes on as from the start. *)
Lemma scan_reaches path i (st : state) k st' :
  reaches path i st k st' →
  i ≤ k ∧ ∀ fuel, scan ((k - i) + fuel) path i st = scan fuel path k st'.
Proof.
  induction 1 as [i st|i st st1 k st' Hbody _ [Hle IH]].
  - split; [done|]. intros fuel. by rewrite Nat.sub_diag.
  - split; [lia|]. intros fuel.
    replace (k - i + fuel) with (S (k - S i + fuel)) by lia.
    cbn [DriverDisks.scan]. by rewrite Hbody, IH.
Qed.

(** What was asked on the way to index [k] is about lower indices. *)
Lemma reaches_trace path i (st : state) k st' :
  reaches path i st k st' →
  ∀ e, e ∈ trace st' →
       e ∈ trace st ∨ ∃ j, i ≤ j < k ∧ about path j e.
Proof.
  induction 1 as [i st|i st st1 k st' Hbody Hreach IH]; intros e He.
  - by left.
  - apply scan_reaches in Hreach as [Hle _].
    apply IH in He as [He|(j & Hj & He)].
    + apply body_trace in Hbody as (evs & Htr & Hev).
      rewrite Htr in He. apply elem_of_app in He as [He|He]; [by left|].
      right. exists i. split; [lia|]. by eapply Forall_forall in Hev.
    + right. exists j. split; [lia|done].
Qed.

(** The scan over [m] directories with packages and repodata, from
    index [i], followed by a missing directory. *)
Lemma scan_ready path m : ∀ i (st : state) fuel,
  (∀ j, i ≤ j < i + m →
     isdir (world st) (dd_path path j) = true ∧
     glob (world st) (dd_path path j +:+ "/*rpm") ≠ [] ∧
     isdir (world st) (join_paths (dd_path path j) "repodata") = true) →
  isdir (world st) (dd_path path (i + m)) = false →
  m < fuel →
  scan fuel path i st =
  Some (Returned
    (mkState (world st)
       (trace st ++ flat_map (quiet_turn path) (seq i m)
                 ++ [IsDir (dd_path path (i + m))])
       (repositories st ++ (dd_repo path <$> seq i m)))).
Proof.
  induction m as [|m IH]; intros i st fuel Hready Hmissing Hfuel.
  - destruct fuel as [|fuel]; [lia|]. cbn [DriverDisks.scan].
    rewrite Nat.add_0_r in Hmissing. rewrite body_missing by done.
    rewrite Nat.add_0_r, app_nil_r. by destruct st.
  - destruct fuel as [|fuel]; [lia|]. cbn [DriverDisks.scan].
    destruct (Hready i) as (Hd & Hg & Hr); [lia|].
    rewrite body_ready by done.
    rewrite IH; cbn [world trace repositories].
    + replace (S i + m) with (i + S m) by lia.
      cbn [seq flat_map fmap list_fmap]. by rewrite <- !app_assoc.
    + intros j Hj. apply Hready. lia.
    + by replace (S i + m) with (i + S m) by lia.
    + lia.
Qed.

(** C6: when driver disks are allowed and the directories DD-1 to DD-n
    exist under the path, each with a file that matches *rpm and with a
    repodata directory, and DD-(n+1) does not exist, the call returns, for
    every bound on the turns above n, exactly n records, the i-th of them
    with the name DD-i, the url file://path/DD-i and the fields of a new
    record elsewhere, in the order of the indices; the external command is
    not invoked and the file system is as before. *)
Theorem driver_disks_complete (path : string) (w : World) (n : nat) :
  (∀ i, 1 ≤ i ≤ n →
     isdir w (dd_path path i) = true ∧
     glob w (dd_path path i +:+ "/*rpm") ≠ [] ∧
     isdir w (join_paths (dd_path path i) "repodata") = true) →
  isdir w (dd_path path (S n)) = false →
  ∀ fuel, n < fuel →
  ∃ st,
    generate_driver_disk_repositories fuel true path w
      = Some (Returned st) ∧
    length (repositories st) = n ∧
    repositories st = dd_repo path <$> seq 1 n ∧
    (∀ i, dd_repo path i =
          {| name := "DD-" +:+ pretty i;
             origin := origin RepoConfigurationData_new;
             enabled := enabled RepoConfigurationData_new;
             url := "file://" +:+ path +:+ "/DD-" +:+ pretty i;
             type := type RepoConfigurationData_new;
             ssl_verification_enabled :=
               ssl_verification_enabled RepoConfigurationData_new;
             ssl_configuration :=
               ssl_configuration RepoConfigurationData_new;
             proxy := proxy RepoConfigurationData_new;
             installation_enabled :=
               installation_enabled RepoConfigurationData_new |}) ∧
    ¬ invoked (trace st) ∧
    world st = w.
Proof.
  intros Hready Hmissing fuel Hfuel.
  unfold DriverDisks.generate_driver_disk_repositories. cbn [negb].
  rewrite (scan_ready path n 1); cbn [world trace repositories];
    [|intros j Hj; apply Hready; lia|done..].
  eexists. split; [done|]. cbn [world trace repositories app].
  split_and!.
  - by rewrite length_fmap, length_seq.
  - done.
  - done.
  - apply quiet_turns_not_invoked.
  - done.
Qed.

(** C7: a directory DD-k that exists and holds no file that matches *rpm
    yields no record and the scan goes on with DD-(k+1), which it asks
    for; at a directory DD-k that does not exist the scan ends with the
    records found so far, and a scan that arrives there from DD-1 has
    examined no directory of a higher index, whatever the file system
    holds. *)
Theorem scan_skips_empty_and_stops_at_gap (path : string) :
  (∀ k (st : state),
     isdir (world st) (dd_path path k) = true →
     glob (world st) (dd_path path k +:+ "/*rpm") = [] →
     ∃ st1,
       body path k st = (Continue, st1) ∧
       repositories st1 = repositories st ∧
       world st1 = world st ∧
       (∀ fuel, scan (S fuel) path k st = scan fuel path (S k) st1) ∧
       (∀ c st2, body path (S k) st1 = (c, st2) →
                 IsDir (dd_path path (S k)) ∈ trace st2)) ∧
  (∀ k (st : state),
     isdir (world st) (dd_path path k) = false →
     (∀ fuel, scan (S fuel) path k st
              = Some (Returned (log (IsDir (dd_path path k)) st))) ∧
     (∀ w, reaches path 1 (mkState w [] []) k st →
        ∀ fuel, k ≤ fuel →
        ∃ st',
          generate_driver_disk_repositories fuel true path w
            = Some (Returned st') ∧
          repositories st' = repositories st ∧
          ∀ j, k < j → ¬ examined path j (trace st'))).
Proof.
  split.
  - intros k st Hd Hg. eexists. split; [by apply body_no_rpm|].
    cbn [world trace repositories]. split_and!; [done..| |].
    + intros fuel. cbn [DriverDisks.scan]. by rewrite body_no_rpm.
    + intros c st2 (evs & -> & _)%body_trace.
      apply elem_of_app. right. apply list_elem_of_here.
  - intros k st Hd.
    assert (Hstop :
              ∀ fuel, scan (S fuel) path k st
                      = Some (Returned (log (IsDir (dd_path path k)) st))).
    { intros fuel. cbn [DriverDisks.scan]. by rewrite body_missing. }
    split; [done|]. intros w Hreach fuel Hfuel.
    pose proof (scan_reaches _ _ _ _ _ Hreach) as [Hle Hscan].
    eexists. split_and!.
    + unfold DriverDisks.generate_driver_disk_repositories. cbn [negb].
      replace fuel with (k - 1 + S (fuel - k)) by lia.
      rewrite Hscan. apply Hstop.
    + done.
    + intros j Hj (e & He & Habout). unfold log in He. cbn [trace] in He.
      apply elem_of_app in He as [He|He].
      * apply (reaches_trace _ _ _ _ _ Hreach) in He
          as [He|(j' & Hj' & Habout')].
        -- by apply elem_of_nil in He.
        -- pose proof (about_inj _ _ _ _ Habout Habout'). lia.
      * apply list_elem_of_singleton in He.
        assert (about path k e) as Habout' by (by left).
        pose proof (about_inj _ _ _ _ Habout Habout'). lia.
Qed.

End ScanSpec.

Lemma driver_disks_complete_witness :
  ∃ st,
    generate_driver_disk_repositories
      Examples.fs_isdir Examples.fs_glob Examples.fs_exec
      3 true default_path Examples.two_disks = Some (Returned st) ∧
    repositories st =
      [mkRepo "DD-1" REPO_ORIGIN_USER true "file:///run/install/DD-1"
              URL_TYPE_BASEURL true SSLConfigurationData_new "" false;
       mkRepo "DD-2" REPO_ORIGIN_USER true "file:///run/install/DD-2"
              URL_TYPE_BASEURL true SSLConfigurationData_new "" false].
Proof.
  destruct (driver_disks_complete
              Examples.fs_isdir Examples.fs_glob Examples.fs_exec
              default_path Examples.two_disks 2) with (fuel := 3)
    as (st & Hrun & _ & Hrepos & _).
  - intros i Hi. assert (i = 1 ∨ i = 2) as [-> | ->] by lia; by vm_compute.
  - by vm_compute.
  - lia.
  - exists st. split; [done|]. rewrite Hrepos. by vm_compute.
Defined.

Lemma scan_skips_empty_and_stops_at_gap_witness :
  let isdir := Examples.fs_isdir in
  let glob := Examples.fs_glob in
  let w := Examples.gap_disks in
  isdir w (dd_path default_path 1) = true ∧
  glob w (dd_path default_path 1 +:+ "/*rpm") = [] ∧
  isdir w (dd_path default_path 2) = false ∧
  isdir w (dd_path default_path 3) = true ∧
  ∃ st,
    generate_driver_disk_repositories isdir glob Examples.fs_exec
      4 true default_path w = Some (Returned st) ∧
    repositories st = [] ∧
    ¬ examined default_path 3 (trace st).
Proof.
  intros isdir glob w.
  destruct (scan_skips_empty_and_stops_at_gap
              isdir glob Examples.fs_exec default_path) as [Hskip Hstop].
  assert (H1 : isdir w (dd_path default_path 1) = true) by by vm_compute.
  assert (G1 : glob w (dd_path default_path 1 +:+ "/*rpm") = [])
    by by vm_compute.
  assert (H2 : isdir w (dd_path default_path 2) = false) by by vm_compute.
  split_and!; [done..|by vm_compute|].
  destruct (Hskip 1 (mkState w [] []) H1 G1) as (st1 & Hbody & Hrepos & Hw & _).
  cbn [world] in Hw. rewrite <- Hw in H2.
  destruct (Hstop 2 st1 H2) as [_ Hrun].
  destruct (Hrun w) with (fuel := 4) as (st' & Hgen & Hrepos' & Hnot).
  - eapply reaches_next; [exact Hbody|]. apply reaches_here.
  - lia.
  - exists st'. split_and!; [done| |apply Hnot; lia].
    by rewrite Hrepos', Hrepos.
Defined.

End DriverDisksSpec.


(** ** The URL source *)

Module URLSourceSpec.

Import URLSource.

Section MethodsSpec.

Variable ProxyString_error : string → option string.

Local Abbreviation set_repo_configuration :=
  (set_repo_configuration ProxyString_error).
Local Abbreviation process_kickstart := (process_kickstart ProxyString_error).
Local Abbreviation reachable := (reachable ProxyString_error).
Local Abbreviation rejected := (rejected ProxyString_error).
Local Abbreviation well_formed_proxy := (well_formed_proxy ProxyString_error).

(** The call, case by case: it raises and leaves the module as it is,
    or it stores the candidate and emits it. *)
Lemma set_repo_configuration_cases (c : RepoConfigurationData)
    (self : URLSourceModule) :
  (rejected c ∧
   ∃ msg, set_repo_configuration c self
          = (Raise (InvalidValueError msg), self))
  ∨
  (¬ rejected c ∧
   set_repo_configuration c self = (Ok (), mkModule c (emitted self ++ [c]))).
Proof.
  unfold URLSource.set_repo_configuration, _validate_url, _validate_proxy,
    URLSource.rejected, URLSource.well_formed_proxy.
  unfold mbind, M_bind, mret, M_ret, raise, get, assign, emit.
  destruct (decide (type c ∈ URL_TYPES)) as [Hty|Hty].
  2:{ left. split; [by left|]. by eexists. }
  destruct (decide (proxy c = "")) as [Hp|Hp].
  { right. split; [|done]. intros [?|[? _]]; done. }
  destruct (ProxyString_error (proxy c)) as [e|] eqn:He.
  - left. split; [|by eexists]. right. by split.
  - right. split; [|done]. intros [?|[_ Hwf]]; [done|]. by destruct Hwf.
Qed.

(** What a module holds has passed the validations. *)
Lemma reachable_valid (self : URLSourceModule) :
  reachable self → ¬ rejected (repo_configuration self).
Proof.
  induction 1 as [|self c r self' _ IH Hset].
  - unfold URLSource.rejected. cbn. intros [Hty|[Hp _]]; [|done].
    apply Hty. apply list_elem_of_here.
  - destruct (set_repo_configuration_cases c self)
      as [[_ [msg Hr]]|[Hok Hr]]; rewrite Hr in Hset;
      injection Hset as <- <-; done.
Qed.

(** C8: the call raises, with the error of an invalid value, exactly
    when the type of the candidate is not BASEURL, MIRRORLIST or METALINK
    or its proxy is not empty and not a well-formed proxy URL; then the
    module is as before, with the configuration it held; otherwise the
    module holds the candidate, which is emitted once. *)
Theorem set_repo_configuration_validates (self : URLSourceModule)
    (c : RepoConfigurationData) :
  let invalid :=
    type c ∉ [URL_TYPE_BASEURL; URL_TYPE_MIRRORLIST; URL_TYPE_METALINK] ∨
    (proxy c ≠ "" ∧ ¬ well_formed_proxy (proxy c)) in
  ((∃ msg, (set_repo_configuration c self).1
           = Raise (InvalidValueError msg)) ↔ invalid) ∧
  (invalid →
     (set_repo_configuration c self).2 = self ∧
     repo_configuration (set_repo_configuration c self).2
       = repo_configuration self) ∧
  (¬ invalid →
     (set_repo_configuration c self).1 = Ok () ∧
     repo_configuration (set_repo_configuration c self).2 = c ∧
     emitted (set_repo_configuration c self).2 = emitted self ++ [c]).
Proof.
  intros invalid.
  destruct (set_repo_configuration_cases c self)
    as [[Hrej [msg Hr]]|[Hok Hr]]; rewrite Hr; cbn [fst snd].
  - split_and!; [|done..]. split; [done|]. by exists msg.
  - split_and!; [|done..]. split; [|done]. by intros [msg ?].
Qed.

(** The record that comes back from the kickstart data of a module. *)
Lemma round_trip_record (c : RepoConfigurationData)
    (em : list RepoConfigurationData) :
  type c ∈ URL_TYPES →
  url c ≠ "" ∨ type c = URL_TYPE_BASEURL →
  same_source c
    (kickstart_to_repo RepoConfigurationData_new
       (setup_kickstart (mkModule c em) KS.fresh)).
Proof.
  destruct c as [n o e u t v [ca cc ck] p i]. cbn [type url].
  intros Hty Hurl. unfold same_source, setup_kickstart, kickstart_to_repo.
  cbn [repo_configuration type url proxy ssl_verification_enabled
       ssl_configuration ca_cert_path client_cert_path client_key_path].
  unfold URL_TYPES in Hty.
  destruct (decide (u = "")) as [->|Hu].
  - destruct Hurl as [?| ->]; [done|].
    repeat case_decide; try discriminate; try done; cbn; by destruct v.
  - apply elem_of_cons in Hty as [->|Hty];
      [|apply elem_of_cons in Hty as [->|Hty];
        [|apply list_elem_of_singleton in Hty as ->]].
    all: repeat case_decide; try discriminate; try done.
    all: cbn; rewrite bool_decide_eq_false_2 by done; cbn.
    all: by destruct v.
Qed.

(** With an empty url nothing of the three URL fields counts as set, and
    the type that comes back is the type of the new record, whatever the
    type of the configuration was. *)
Lemma empty_url_takes_type_of_new_record (d c : RepoConfigurationData)
    (em : list RepoConfigurationData) :
  url c = "" →
  type (kickstart_to_repo d (setup_kickstart (mkModule c em) KS.fresh))
    = type d.
Proof.
  destruct c as [n o e u t v [ca cc ck] p i]. cbn [url]. intros ->.
  unfold setup_kickstart, kickstart_to_repo.
  cbn [repo_configuration type url].
  by repeat case_decide.
Qed.

(** C9, amended: for the configuration of a module, of type BASEURL
    with any url or of type MIRRORLIST or METALINK with a url that is not
    empty, the export to a fresh kickstart record and the import of that
    record into a module return, and the module then holds a configuration
    with the same url, type, proxy, certificate verification and
    certificate paths. *)
Theorem kickstart_round_trip (self target : URLSourceModule) :
  reachable self →
  url (repo_configuration self) ≠ "" ∨
  type (repo_configuration self) = URL_TYPE_BASEURL →
  type (repo_configuration self) ∈ URL_TYPES ∧
  ∃ target',
    process_kickstart (setup_kickstart self KS.fresh) target
      = (Ok (), target') ∧
    same_source (repo_configuration self) (repo_configuration target').
Proof.
  intros Hvalid%reachable_valid Hurl.
  assert (Hty : type (repo_configuration self) ∈ URL_TYPES).
  { destruct (decide (type (repo_configuration self) ∈ URL_TYPES));
      [done|]. destruct Hvalid. by left. }
  split; [done|].
  destruct self as [c em]. cbn [repo_configuration] in *.
  pose proof (round_trip_record c em Hty Hurl) as Hsame.
  unfold URLSource.process_kickstart.
  destruct (set_repo_configuration_cases
              (kickstart_to_repo RepoConfigurationData_new
                 (setup_kickstart (mkModule c em) KS.fresh)) target)
    as [[Hrej _]|[_ Hr]].
  - destruct Hvalid. destruct Hsame as (_ & Ht & Hp & _).
    unfold URLSource.rejected in *. by rewrite <- Ht, <- Hp.
  - eexists. split; [exact Hr|done].
Qed.

End MethodsSpec.

Lemma set_repo_configuration_validates_witness :
  let c := set_proxy "not a url" RepoConfigurationData_new in
  let r := set_repo_configuration Examples.proxy_error c init in
  (proxy c ≠ "" ∧ ¬ well_formed_proxy Examples.proxy_error (proxy c)) ∧
  (∃ msg, r.1 = Raise (InvalidValueError msg)) ∧
  repo_configuration r.2 = RepoConfigurationData_new.
Proof.
  intros c r.
  assert (Hbad : proxy c ≠ "" ∧
                 ¬ well_formed_proxy Examples.proxy_error (proxy c))
    by by split.
  destruct (set_repo_configuration_validates Examples.proxy_error init c)
    as (Hiff & Hfail & _).
  split; [done|]. split.
  - apply Hiff. by right.
  - apply Hfail. by right.
Defined.

(** C9, as the claim states it, fails: a module holds a configuration of
    type MIRRORLIST with an empty url; the export sets the mirror list to
    the empty string, which the import takes for unset, and the type that
    comes back is BASEURL. *)
Lemma empty_mirrorlist_comes_back_as_baseurl :
  let c := Examples.empty_mirrorlist in
  let self := (set_repo_configuration Examples.proxy_error c init).2 in
  let back :=
    (process_kickstart Examples.proxy_error
       (setup_kickstart self KS.fresh) init).2 in
  reachable Examples.proxy_error self ∧
  repo_configuration self = c ∧
  type c = URL_TYPE_MIRRORLIST ∧
  type (repo_configuration back) = URL_TYPE_BASEURL ∧
  ¬ same_source c (repo_configuration back).
Proof.
  split_and!.
  - eapply reachable_set; [apply reachable_init|]. apply surjective_pairing.
  - by vm_compute.
  - done.
  - by vm_compute.
  - intros (_ & Hty & _). by vm_compute in Hty.
Qed.

Lemma kickstart_round_trip_witness :
  let c := Examples.metalink_repo in
  let self := (set_repo_configuration Examples.proxy_error c init).2 in
  reachable Examples.proxy_error self ∧
  url (repo_configuration self) ≠ "" ∧
  ∃ target',
    process_kickstart Examples.proxy_error
      (setup_kickstart self KS.fresh) init = (Ok (), target') ∧
    same_source c (repo_configuration target').
Proof.
  intros c self.
  assert (Hreach : reachable Examples.proxy_error self).
  { eapply reachable_set; [apply reachable_init|]. apply surjective_pairing. }
  assert (Hurl : url (repo_configuration self) ≠ "") by by vm_compute.
  split_and!; [done..|].
  by destruct (kickstart_round_trip Examples.proxy_error self init Hreach)
    as [_ Hback]; [by left|].
Defined.

End URLSourceSpec.


(** ** Input checks *)

Module HelpersSpec.

Import Helpers.

Section InputChecksSpec.

Context {Input Data : Type}.

Implicit Types (self : InputCheckHandler Input Data)
               (c : InputCheck Input Data).

Lemma failing_iff c :
  failing c = true ↔ enabled c = true ∧ check_status c ≠ CHECK_OK.
Proof.
  unfold failing. rewrite andb_true_iff, negb_true_iff.
  by rewrite bool_decide_eq_false.
Qed.

Lemma elem_of_failed_checks self c :
  c ∈ failed_checks self ↔
  c ∈ check_list self ∧ enabled c = true ∧ check_status c ≠ CHECK_OK.
Proof.
  unfold failed_checks. rewrite list_elem_of_filter, failing_iff. tauto.
Qed.

Lemma perform_passes_at ref self (k : call Input Data) :
  k ≠ UpdateCheckStatus ref →
  passes_at ref self → passes_at ref (perform self k).
Proof.
  intros Hk Hok c. destruct k as [i f d|ref'|ref' v]; cbn.
  - intros [Hc|[_ Hc]]%lookup_app_Some; [by apply Hok|].
    apply list_lookup_singleton_Some in Hc as [_ <-]. done.
  - unfold update_check_status.
    destruct (check_list self !! ref') as [c'|] eqn:Hc'; [|by apply Hok].
    destruct (enabled c'); cbn; [|by apply Hok].
    rewrite list_lookup_insert_ne by congruence. by apply Hok.
  - unfold set_enabled.
    destruct (check_list self !! ref') as [c'|] eqn:Hc'; [|by apply Hok].
    cbn. destruct (decide (ref' = ref)) as [->|Hne].
    + rewrite list_lookup_insert_eq by by eapply lookup_lt_Some.
      intros [= <-]. cbn. by apply Hok.
    + rewrite list_lookup_insert_ne by done. by apply Hok.
Qed.

Lemma foldl_passes_at ref (calls : list (call Input Data)) self :
  never_run ref calls →
  passes_at ref self → passes_at ref (foldl perform self calls).
Proof.
  revert self. induction calls as [|k calls IH]; intros self Hnever Hok.
  - done.
  - cbn [foldl]. apply not_elem_of_cons in Hnever as [Hk Hnever].
    apply IH; [done|]. apply perform_passes_at; [congruence|done].
Qed.

(** C10: the failed checks are the checks of the handler that are enabled
    and have a status other than [CHECK_OK], in the order of the handler;
    a check comes out of [add_check] enabled and with the status
    [CHECK_OK], so it is not among them, and stays out as long as it is
    not run; a check that is disabled is not among them, whatever its
    status is. *)
Theorem failed_checks_are_enabled_failures self :
  (∀ c, c ∈ failed_checks self ↔
        c ∈ check_list self ∧ enabled c = true ∧
        check_status c ≠ CHECK_OK) ∧
  failed_checks self `sublist_of` check_list self ∧
  (∀ i f d,
     let self' := (add_check i f d self).1 in
     let ref := (add_check i f d self).2 in
     ∃ c, check_list self' !! ref = Some c ∧
          check_status c = CHECK_OK ∧ enabled c = true ∧
          (c ∉ failed_checks self') ∧
          failed_checks self' = failed_checks self) ∧
  (∀ calls ref c,
     never_run ref calls →
     check_list (run calls) !! ref = Some c →
     check_status c = CHECK_OK ∧ c ∉ failed_checks (run calls)) ∧
  (∀ c, c ∈ check_list self → enabled c = false →
        c ∉ failed_checks self) ∧
  (∀ ref c,
     check_list (set_enabled ref false self) !! ref = Some c →
     enabled c = false ∧ c ∉ failed_checks (set_enabled ref false self)).
Proof.
  split_and!.
  - apply elem_of_failed_checks.
  - apply sublist_filter.
  - intros i f d self' ref. exists (InputCheck_init i f d).
    unfold self', ref, add_check. cbn [fst snd check_list].
    split_and!; [| done..| |].
    + by rewrite lookup_app_r, Nat.sub_diag.
    + rewrite elem_of_failed_checks. by intros (_ & _ & ?).
    + unfold failed_checks. cbn [check_list].
      rewrite filter_app, filter_cons_False, filter_nil, app_nil_r; [done|].
      cbn. done.
  - intros calls ref c Hnever Hc.
    assert (Hok : check_status c = CHECK_OK).
    { eapply (foldl_passes_at ref calls handler_init); [done| |exact Hc].
      intros c'. cbn. by rewrite lookup_nil. }
    split; [done|]. rewrite elem_of_failed_checks. by intros (_ & _ & ?).
  - intros c _ Hoff. rewrite elem_of_failed_checks.
    intros (_ & Hon & _). congruence.
  - intros ref c. unfold set_enabled.
    destruct (check_list self !! ref) as [c'|] eqn:Hc'.
    + cbn [check_list].
      rewrite list_lookup_insert_eq by by eapply lookup_lt_Some.
      intros [= <-]. split; [done|]. rewrite elem_of_failed_checks.
      by intros (_ & ? & _).
    + by rewrite Hc'.
Qed.

End InputChecksSpec.

Lemma failed_checks_are_enabled_failures_witness :
  let checks := run Examples.screen_calls in
  never_run 1 Examples.screen_calls ∧
  check_list checks !! 1
    = Some (mkCheck "password" Examples.refuse None CHECK_OK true) ∧
  (mkCheck "password" Examples.refuse None CHECK_OK true
     ∉ failed_checks checks) ∧
  failed_checks checks
    = [mkCheck "name" Examples.refuse None (Some "Required") true].
Proof.
  intros checks.
  assert (Hnever : never_run 1 Examples.screen_calls).
  { unfold never_run, Examples.screen_calls.
    repeat (apply not_elem_of_cons; split; [done|]). apply not_elem_of_nil. }
  assert (Hc : check_list checks !! 1
               = Some (mkCheck "password" Examples.refuse None CHECK_OK true))
    by done.
  destruct (failed_checks_are_enabled_failures checks)
    as (_ & _ & _ & Hrun & _).
  destruct (Hrun Examples.screen_calls 1 _ Hnever Hc) as [_ Hout].
  by split_and!.
Defined.

End HelpersSpec.


(** * Further properties *)

(** ** The merge of treeinfo repositories, further *)

Module RepositoriesExtra.

Import RepositoriesSpec.

Lemma disable_loop_lookup_outside D T (h : heap) r :
  r ∉ T → foldl (disable_if_listed D) h T !! r = h !! r.
Proof.
  revert h. induction T as [|t T IH]; intros h Hr; cbn [foldl]; [done|].
  apply not_elem_of_cons in Hr as [Hne Hr]. rewrite IH by done.
  unfold disable_if_listed. destruct (decide _); [|done].
  by apply setattr_lookup_ne.
Qed.

Lemma disable_loop_empty T (h : heap) :
  foldl (disable_if_listed ∅) h T = h.
Proof.
  revert h. induction T as [|t T IH]; intros h; cbn [foldl]; [done|].
  unfold disable_if_listed at 2. rewrite decide_False; [apply IH|].
  apply not_elem_of_empty.
Qed.

(** X1: the call changes nothing in the store but the enabled flag, only
    of records of the batch whose name was disabled before, and only from
    true to false; a reference that is not in the batch is as before. *)
Theorem update_only_disables (L T : list loc) (h : heap) (r : loc) :
  let h' := (update_treeinfo_repositories L T h).1 in
  (h' !!! r = h !!! r ∨
   (r ∈ T ∧ previously_disabled h L (name (h !!! r)) ∧
    enabled (h !!! r) = true ∧
    h' !!! r = set_enabled false (h !!! r))) ∧
  (r ∉ T → h' !! r = h !! r) ∧
  (enabled (h' !!! r) = true → enabled (h !!! r) = true).
Proof.
  intros h'. unfold h'.
  assert (Hcases :
    (update_treeinfo_repositories L T h).1 !!! r = h !!! r ∨
    (r ∈ T ∧ previously_disabled h L (name (h !!! r)) ∧
     enabled (h !!! r) = true ∧
     (update_treeinfo_repositories L T h).1 !!! r
       = set_enabled false (h !!! r))).
  { rewrite update_store. destruct (decide (r ∈ T)) as [Hr|]; [|by left].
    unfold adjust.
    destruct (decide (name (h !!! r) ∈ disabled_names h L)) as [Hd|];
      [|by left].
    destruct (enabled (h !!! r)) eqn:Hen.
    - right. split_and!; [done| |done..]. by apply elem_of_disabled_names.
    - left. rewrite <- Hen. apply set_enabled_same. }
  split_and!.
  - done.
  - intros Hr. rewrite update_unfold. by apply disable_loop_lookup_outside.
  - intros Hen. destruct Hcases as [Heq|(_ & _ & _ & Heq)];
      rewrite Heq in Hen; done.
Qed.

(** X2: with an empty list the batch is returned as it is, and with an
    empty batch the list is returned without its treeinfo records; the
    store is the same in both cases. *)
Theorem update_with_nothing (L T : list loc) (h : heap) :
  update_treeinfo_repositories [] T h = (h, T) ∧
  update_treeinfo_repositories L [] h
    = (h, filter (λ r, ¬ is_treeinfo h r) L).
Proof.
  split.
  - rewrite update_unfold. f_equal.
    + apply disable_loop_empty.
    + cbn [app]. apply filter_all, Forall_forall. intros t _.
      apply not_elem_of_empty.
  - rewrite update_unfold. cbn [foldl]. by rewrite filter_nil, app_nil_r.
Qed.

(** X3: the disabled state outlives the generations: a treeinfo record
    of the batch that took the disabled state of its name and is in the
    result hands it on: in the next pass over that result, with any new
    batch in a store that holds the records of the result as they are, a
    record with that name is disabled again. *)
Theorem disabled_state_is_handed_on (L T1 T2 : list loc) (h h2 : heap)
    (t1 t2 : loc) :
  t1 ∈ T1 → is_treeinfo h t1 →
  previously_disabled h L (name (h !!! t1)) →
  ¬ declared_by_user h L (url (h !!! t1)) →
  let p1 := update_treeinfo_repositories L T1 h in
  (∀ r, r ∈ p1.2 → h2 !!! r = p1.1 !!! r) →
  t2 ∈ T2 → name (h2 !!! t2) = name (h !!! t1) →
  t1 ∈ p1.2 ∧
  previously_disabled h2 p1.2 (name (h2 !!! t2)) ∧
  enabled ((update_treeinfo_repositories p1.2 T2 h2).1 !!! t2) = false.
Proof.
  intros Ht1 Hti Hd Hu p1 Hsame Ht2 Hname.
  assert (Hin : t1 ∈ p1.2).
  { unfold p1. rewrite update_result. apply elem_of_app. right.
    by apply elem_of_surviving. }
  assert (Hval : p1.1 !!! t1 = set_enabled false (h !!! t1)).
  { unfold p1. rewrite update_store, decide_True by done.
    unfold adjust. rewrite decide_True; [done|].
    by apply elem_of_disabled_names. }
  assert (Hd2 : previously_disabled h2 p1.2 (name (h2 !!! t2))).
  { exists t1. unfold is_treeinfo. rewrite (Hsame t1 Hin), Hval.
    split_and!; [done|exact Hti|done|]. by rewrite Hname. }
  split_and!; [done..|].
  rewrite update_store, decide_True by done.
  unfold adjust. rewrite decide_True; [done|].
  by apply elem_of_disabled_names.
Qed.

Lemma disabled_state_is_handed_on_witness :
  let h := Examples.merge_store in
  let p1 := update_treeinfo_repositories [0; 1] [2] h in
  let h2 := <[3 := Examples.new_appstream]> p1.1 in
  2 ∈ [2] ∧ is_treeinfo h 2 ∧
  previously_disabled h [0; 1] (name (h !!! 2)) ∧
  enabled (h2 !!! 3) = true ∧
  enabled ((update_treeinfo_repositories p1.2 [3] h2).1 !!! 3) = false.
Proof.
  intros h p1 h2.
  assert (Ht1 : 2 ∈ [2]) by apply list_elem_of_here.
  assert (Hti : is_treeinfo h 2) by done.
  assert (Hd : previously_disabled h [0; 1] (name (h !!! 2))).
  { exists 1. split_and!; [|done..].
    by apply list_elem_of_further, list_elem_of_here. }
  assert (Hu : ¬ declared_by_user h [0; 1] (url (h !!! 2))).
  { intros (l & Hl & Hnt & _ & Hurl).
    apply elem_of_cons in Hl as [->|Hl]; [by vm_compute in Hurl|].
    apply list_elem_of_singleton in Hl as ->. by apply Hnt. }
  split_and!; [done..|].
  destruct (disabled_state_is_handed_on [0; 1] [2] [3] h h2 2 3
              Ht1 Hti Hd Hu) as (_ & _ & Hoff).
  - intros r Hr. assert (r ≠ 3).
    { intros ->. vm_compute in Hr.
      apply elem_of_cons in Hr as [?|Hr]; [done|].
      by apply list_elem_of_singleton in Hr. }
    unfold h2. by rewrite lookup_total_insert_ne.
  - apply list_elem_of_here.
  - by vm_compute.
  - exact Hoff.
Defined.

Lemma kept_agree (h h1 : heap) (L : list loc) :
  (∀ r, r ∈ L → h1 !!! r = h !!! r) → kept h1 L = kept h L.
Proof.
  intros Hsame. induction L as [|l L IH]; [done|].
  assert (Hl : h1 !!! l = h !!! l) by apply Hsame, list_elem_of_here.
  assert (HL : kept h1 L = kept h L).
  { apply IH. intros r Hr. by apply Hsame, list_elem_of_further. }
  unfold kept in *. rewrite !filter_cons, HL.
  destruct (decide (¬ is_treeinfo h1 l)) as [H1|H1],
           (decide (¬ is_treeinfo h l)) as [H2|H2];
    unfold is_treeinfo in H1, H2; rewrite Hl in H1; done.
Qed.

Lemma declared_agree (h h1 : heap) (L : list loc) u :
  (∀ r, r ∈ L → h1 !!! r = h !!! r) →
  declared_by_user h1 L u ↔ declared_by_user h L u.
Proof.
  intros Hsame. unfold declared_by_user, is_treeinfo.
  split; intros (l & Hl & H); exists l; (split; [done|]).
  - by rewrite <- (Hsame l Hl).
  - by rewrite (Hsame l Hl).
Qed.

Lemma disabled_agree (h h1 : heap) (L : list loc) n :
  (∀ r, r ∈ L → h1 !!! r = h !!! r) →
  previously_disabled h1 L n ↔ previously_disabled h L n.
Proof.
  intros Hsame. unfold previously_disabled, is_treeinfo.
  split; intros (l & Hl & H); exists l; (split; [done|]).
  - by rewrite <- (Hsame l Hl).
  - by rewrite (Hsame l Hl).
Qed.

(** X4: a treeinfo repository that is generated from a template of the
    store and merged into a list of records of the store is left out when
    a record of a user in the list has its url, and is appended otherwise;
    it is appended disabled when a treeinfo record of its name was
    disabled in the list, and with the enabled flag of the metadata when
    not. *)
Theorem generated_repository_is_merged (L : list loc) (h : heap)
    (repo_data : loc) (repo_md : TreeInfoRepoMetadata) :
  repo_data ∈ dom h → Forall (λ l, l ∈ dom h) L →
  let g := generate_treeinfo_repository repo_data repo_md h in
  let p := update_treeinfo_repositories L [g.2] g.1 in
  (declared_by_user h L (md_url repo_md) → p.2 = kept h L) ∧
  (¬ declared_by_user h L (md_url repo_md) →
     p.2 = kept h L ++ [g.2] ∧
     proxy (p.1 !!! g.2) = proxy (h !!! repo_data) ∧
     ssl_configuration (p.1 !!! g.2)
       = ssl_configuration (h !!! repo_data) ∧
     (previously_disabled h L (md_name repo_md) →
        enabled (p.1 !!! g.2) = false) ∧
     (¬ previously_disabled h L (md_name repo_md) →
        enabled (p.1 !!! g.2) = md_enabled repo_md)).
Proof.
  intros Hin HL g p.
  assert (Hfresh : g.2 ∉ dom h) by apply is_fresh.
  assert (Hother : ∀ r, r ≠ g.2 → g.1 !! r = h !! r).
  { intros r Hr. unfold g, generate_treeinfo_repository, deepcopy.
    cbn [fst snd] in *. rewrite !setattr_lookup_ne by done.
    by apply lookup_insert_ne. }
  assert (Hnew : g.1 !!! g.2 =
                 mkRepo (md_name repo_md) REPO_ORIGIN_TREEINFO
                   (md_enabled repo_md) (md_url repo_md) URL_TYPE_BASEURL
                   (ssl_verification_enabled (h !!! repo_data))
                   (ssl_configuration (h !!! repo_data))
                   (proxy (h !!! repo_data)) false).
  { unfold g, generate_treeinfo_repository, deepcopy. cbn [fst snd].
    rewrite !setattr_lookup_total. by rewrite lookup_total_insert_eq. }
  assert (Hsame : ∀ r, r ∈ L → g.1 !!! r = h !!! r).
  { intros r Hr. unfold lookup_total, map_lookup_total.
    rewrite Hother; [done|]. intros ->.
    by eapply Forall_forall in HL. }
  assert (Hres : p.2 = kept h L ++ surviving g.1 L [g.2]).
  { unfold p. by rewrite update_result, (kept_agree h g.1). }
  assert (Hurl : url (g.1 !!! g.2) = md_url repo_md) by by rewrite Hnew.
  assert (Hname : name (g.1 !!! g.2) = md_name repo_md) by by rewrite Hnew.
  split.
  - intros Hu. rewrite Hres. unfold surviving.
    rewrite filter_cons_False, filter_nil, app_nil_r; [done|].
    intros Hout. apply Hout, elem_of_existing_urls.
    rewrite Hurl. by apply (declared_agree h g.1).
  - intros Hu.
    assert (Hstore : p.1 !!! g.2
                     = adjust (disabled_names g.1 L) (g.1 !!! g.2)).
    { unfold p. rewrite update_store, decide_True; [done|].
      apply list_elem_of_here. }
    split_and!.
    + rewrite Hres. unfold surviving.
      rewrite filter_cons_True, filter_nil; [done|].
      rewrite elem_of_existing_urls, Hurl. by rewrite declared_agree.
    + rewrite Hstore. unfold adjust. destruct (decide _); by rewrite Hnew.
    + rewrite Hstore. unfold adjust. destruct (decide _); by rewrite Hnew.
    + intros Hd. rewrite Hstore. unfold adjust. rewrite decide_True; [done|].
      rewrite elem_of_disabled_names, Hname. by apply (disabled_agree h g.1).
    + intros Hd. rewrite Hstore. unfold adjust.
      rewrite decide_False; [by rewrite Hnew|].
      rewrite elem_of_disabled_names, Hname. by rewrite disabled_agree.
Qed.

Lemma generated_repository_is_merged_witness :
  let h := Examples.store [Examples.user_repo; Examples.old_appstream] in
  let md := mkMd "AppStream" "http://mirror/os" true in
  let g := generate_treeinfo_repository 0 md h in
  0 ∈ dom h ∧ Forall (λ l, l ∈ dom h) [0; 1] ∧
  (update_treeinfo_repositories [0; 1] [g.2] g.1).2 = [0].
Proof.
  intros h md g.
  assert (H0 : 0 ∈ dom h) by (apply elem_of_dom; by eexists).
  assert (H1 : 1 ∈ dom h) by (apply elem_of_dom; by eexists).
  assert (HL : Forall (λ l, l ∈ dom h) [0; 1]) by by repeat constructor.
  split_and!; [done..|].
  destruct (generated_repository_is_merged [0; 1] h 0 md H0 HL)
    as [Hdrop _].
  fold g in Hdrop. rewrite Hdrop; [by vm_compute|].
  exists 0. split_and!; [apply list_elem_of_here|done..].
Defined.

End RepositoriesExtra.


(** ** The scan for driver disks, further *)

Module DriverDisksExtra.

Import DriverDisks DriverDisksMore DriverDisksSpec.

Lemma dd_name_inj : Inj (=) (=) dd_name.
Proof.
  intros i j Heq. unfold dd_name in Heq.
  apply String.app_inj in Heq. by apply pretty_nat_inj.
Qed.

Lemma sorted_lt_NoDup (l : list nat) : StronglySorted lt l → NoDup l.
Proof.
  induction 1 as [|i l _ IH Hi]; [constructor|].
  apply NoDup_cons. split; [|done].
  intros Hin. eapply Forall_forall in Hi; [|exact Hin]. lia.
Qed.

Section ScanExtra.

Context {World : Type}.
Variable isdir : World → string → bool.
Variable glob : World → string → list string.
Variable execWithRedirect : string → list string → World → option World.

Local Abbreviation body := (body isdir glob execWithRedirect).
Local Abbreviation scan := (scan isdir glob execWithRedirect).
Local Abbreviation reaches := (reaches isdir glob execWithRedirect).
Local Abbreviation generate_driver_disk_repositories :=
  (generate_driver_disk_repositories isdir glob execWithRedirect).

(** The turn for a directory with packages and without repodata. *)
Lemma body_createrepo path k (st : state) :
  isdir (world st) (dd_path path k) = true →
  glob (world st) (dd_path path k +:+ "/*rpm") ≠ [] →
  isdir (world st) (join_paths (dd_path path k) "repodata") = false →
  body path k st =
  match execWithRedirect "createrepo_c" [dd_path path k] (world st) with
  | Some w' =>
      (Continue,
       mkState w' (trace st ++ createrepo_turn path k)
               (repositories st ++ [dd_repo path k]))
  | None =>
      (Propagate,
       mkState (world st) (trace st ++ createrepo_turn path k)
               (repositories st))
  end.
Proof.
  intros Hd Hg Hr. unfold DriverDisks.body, log.
  cbn [world trace repositories].
  fold (dd_path path k). rewrite Hd, Hr. cbn [negb].
  destruct (glob (world st) (dd_path path k +:+ "/*rpm")); [done|].
  cbn [world trace repositories]. unfold createrepo_turn, quiet_turn.
  destruct (execWithRedirect _ _ _); by rewrite <- !app_assoc.
Qed.

(** X5: for a directory DD-k with packages and without repodata the
    external command createrepo_c is run on that directory; when it
    returns, the record of DD-k is appended and the scan goes on in the
    file system the command left; when it fails, no record is appended,
    and a scan that came there from DD-1 ends with the failure without a
    list and without a look at a directory of a higher index. *)
Theorem createrepo_runs_or_aborts (path : string) (k : nat) (st : state) :
  isdir (world st) (dd_path path k) = true →
  glob (world st) (dd_path path k +:+ "/*rpm") ≠ [] →
  isdir (world st) (join_paths (dd_path path k) "repodata") = false →
  match execWithRedirect "createrepo_c" [dd_path path k] (world st) with
  | Some w' =>
      body path k st =
      (Continue,
       mkState w' (trace st ++ createrepo_turn path k)
               (repositories st ++ [dd_repo path k]))
  | None =>
      body path k st =
      (Propagate,
       mkState (world st) (trace st ++ createrepo_turn path k)
               (repositories st)) ∧
      ∀ w, reaches path 1 (mkState w [] []) k st →
        ∀ fuel, k ≤ fuel →
        ∃ st',
          generate_driver_disk_repositories fuel true path w
            = Some (Raised st') ∧
          repositories st' = repositories st ∧
          ∀ j, k < j → ¬ examined path j (trace st')
  end.
Proof.
  intros Hd Hg Hr. pose proof (body_createrepo path k st Hd Hg Hr) as Hbody.
  destruct (execWithRedirect _ _ _) as [w'|]; [done|].
  split; [done|]. intros w Hreach fuel Hfuel.
  pose proof (scan_reaches _ _ _ _ _ _ _ _ Hreach) as [Hle Hscan].
  eexists. split_and!.
  - unfold DriverDisks.generate_driver_disk_repositories. cbn [negb].
    replace fuel with (k - 1 + S (fuel - k)) by lia.
    rewrite Hscan. cbn [DriverDisks.scan]. by rewrite Hbody.
  - done.
  - intros j Hj (e & He & Habout). cbn [trace] in He.
    apply elem_of_app in He as [He|He].
    + apply (reaches_trace _ _ _ _ _ _ _ _ Hreach) in He
        as [He|(j' & Hj' & Habout')].
      * by apply elem_of_nil in He.
      * pose proof (about_inj _ _ _ _ Habout Habout'). lia.
    + assert (about path k e) as Habout'.
      { unfold createrepo_turn, quiet_turn, about in *.
        repeat (apply elem_of_cons in He as [->|He]; [tauto|]).
        by apply elem_of_nil in He. }
      pose proof (about_inj _ _ _ _ Habout Habout'). lia.
Qed.

Lemma body_repositories path i (st st' : state) c :
  body path i st = (c, st') →
  repositories st' = repositories st ∨
  repositories st' = repositories st ++ [dd_repo path i].
Proof.
  unfold DriverDisks.body, log. cbn [world trace repositories].
  destruct (isdir _ _); cbn [negb]; [|intros [= <- <-]; by left].
  destruct (glob _ _); [intros [= <- <-]; by left|].
  destruct (isdir _ _); cbn [negb world trace repositories].
  - intros [= <- <-]. by right.
  - destruct (execWithRedirect _ _ _); intros [= <- <-];
      [by right|by left].
Qed.

Lemma scan_shape path fuel : ∀ i (st : state) out,
  scan fuel path i st = Some out →
  ∃ l, repositories (outcome_state out)
       = repositories st ++ (dd_repo path <$> l) ∧
       StronglySorted lt l ∧ Forall (le i) l.
Proof.
  induction fuel as [|fuel IH]; intros i st out; [done|].
  cbn [DriverDisks.scan].
  destruct (body path i st) as [c st1] eqn:Hbody.
  apply body_repositories in Hbody as Hrepos.
  destruct c.
  - intros [= <-]. cbn. destruct Hrepos as [Hr|Hr].
    + exists []. rewrite Hr. cbn. rewrite app_nil_r.
      split_and!; [done|constructor..].
    + exists [i]. rewrite Hr. split_and!; [done|by repeat constructor..].
  - intros (l & Hl & Hsorted & Hge)%IH.
    assert (Hgt : Forall (lt i) l).
    { eapply Forall_impl; [exact Hge|]. intros; simpl in *; lia. }
    destruct Hrepos as [Hr|Hr]; rewrite Hr in Hl.
    + exists l. split_and!; [done..|].
      eapply Forall_impl; [exact Hgt|]. intros; simpl in *; lia.
    + exists (i :: l). rewrite Hl, <- app_assoc. split_and!; [done| |].
      * by apply SSorted_cons.
      * constructor; [done|].
        eapply Forall_impl; [exact Hgt|]. intros; simpl in *; lia.
  - intros [= <-]. cbn. destruct Hrepos as [Hr|Hr].
    + exists []. rewrite Hr. cbn. rewrite app_nil_r.
      split_and!; [done|constructor..].
    + exists [i]. rewrite Hr. split_and!; [done|by repeat constructor..].
Qed.

(** X6: whatever the file system holds, the list at the end of a call
    holds records of driver disks in the strict order of their indices,
    which start at 1; no two of them have the same name. *)
Theorem driver_disk_names_are_distinct (fuel : nat) (allowed : bool)
    (path : string) (w : World) (out : outcome) :
  generate_driver_disk_repositories fuel allowed path w = Some out →
  ∃ l,
    repositories (outcome_state out) = dd_repo path <$> l ∧
    StronglySorted lt l ∧ Forall (le 1) l ∧
    name <$> repositories (outcome_state out) = dd_name <$> l ∧
    NoDup (name <$> repositories (outcome_state out)).
Proof.
  unfold DriverDisks.generate_driver_disk_repositories.
  intros Hrun.
  assert (Hl : ∃ l, repositories (outcome_state out) = dd_repo path <$> l ∧
                    StronglySorted lt l ∧ Forall (le 1) l).
  { destruct allowed; cbn [negb] in Hrun.
    - by apply scan_shape in Hrun.
    - injection Hrun as <-. exists []. split_and!; [done|constructor..]. }
  destruct Hl as (l & Hl & Hsorted & Hge). exists l.
  assert (Hnames : name <$> repositories (outcome_state out)
                   = dd_name <$> l).
  { rewrite Hl, <- list_fmap_compose. by apply list_fmap_ext. }
  split_and!; [done..|].
  rewrite Hnames. apply (NoDup_fmap_2 _), sorted_lt_NoDup, Hsorted.
Qed.

End ScanExtra.

Lemma createrepo_runs_or_aborts_witness :
  let isdir := Examples.fs_isdir in
  let glob := Examples.fs_glob in
  let w := MoreExamples.bare_disk in
  isdir w (dd_path default_path 1) = true ∧
  glob w (dd_path default_path 1 +:+ "/*rpm") ≠ [] ∧
  isdir w (join_paths (dd_path default_path 1) "repodata") = false ∧
  body isdir glob Examples.fs_exec default_path 1 (mkState w [] []) =
  (Continue,
   mkState (Examples.mkFs ["/run/install/DD-1";
                           "/run/install/DD-1/repodata"]
                          [("/run/install/DD-1", "kmod-a.rpm")])
           (createrepo_turn default_path 1)
           [dd_repo default_path 1]).
Proof.
  intros isdir glob w.
  assert (H1 : isdir w (dd_path default_path 1) = true) by by vm_compute.
  assert (H2 : glob w (dd_path default_path 1 +:+ "/*rpm") ≠ [])
    by by vm_compute.
  assert (H3 : isdir w (join_paths (dd_path default_path 1) "repodata")
               = false) by by vm_compute.
  split_and!; [done..|].
  exact (createrepo_runs_or_aborts isdir glob Examples.fs_exec
           default_path 1 (mkState w [] []) H1 H2 H3).
Defined.

Lemma driver_disk_names_are_distinct_witness :
  ∃ out,
    generate_driver_disk_repositories
      Examples.fs_isdir Examples.fs_glob Examples.fs_exec
      3 true default_path Examples.two_disks = Some out ∧
    name <$> repositories (outcome_state out) = ["DD-1"; "DD-2"] ∧
    NoDup (name <$> repositories (outcome_state out)).
Proof.
  eexists. split; [by vm_compute|].
  destruct (driver_disk_names_are_distinct
              Examples.fs_isdir Examples.fs_glob Examples.fs_exec
              3 true default_path Examples.two_disks _ eq_refl)
    as (l & _ & _ & _ & _ & Hnodup).
  split; [by vm_compute|exact Hnodup].
Defined.

End DriverDisksExtra.


(** ** The URL source, further *)

Module URLSourceExtra.

Import URLSource URLSourceSpec.

Section MethodsExtra.

Variable ProxyString_error : string → option string.

Local Abbreviation set_repo_configuration :=
  (set_repo_configuration ProxyString_error).
Local Abbreviation process_kickstart := (process_kickstart ProxyString_error).
Local Abbreviation reachable := (reachable ProxyString_error).
Local Abbreviation rejected := (rejected ProxyString_error).
Local Abbreviation well_formed_proxy := (well_formed_proxy ProxyString_error).

(** The url and the type that the import takes from a kickstart record,
    on top of a record [d]. *)
Lemma kickstart_to_repo_url_type (d : RepoConfigurationData)
    (data : KS.url_data) :
  let c := kickstart_to_repo d data in
  (KS.truthy (KS.url data) = true →
     url c = KS.or_empty (KS.url data) ∧ type c = URL_TYPE_BASEURL) ∧
  (KS.truthy (KS.url data) = false →
   KS.truthy (KS.mirrorlist data) = true →
     url c = KS.or_empty (KS.mirrorlist data) ∧
     type c = URL_TYPE_MIRRORLIST) ∧
  (KS.truthy (KS.url data) = false →
   KS.truthy (KS.mirrorlist data) = false →
   KS.truthy (KS.metalink data) = true →
     url c = KS.or_empty (KS.metalink data) ∧
     type c = URL_TYPE_METALINK) ∧
  (KS.truthy (KS.url data) = false →
   KS.truthy (KS.mirrorlist data) = false →
   KS.truthy (KS.metalink data) = false →
     url c = url d ∧ type c = type d) ∧
  proxy c = KS.proxy data.
Proof.
  intros c. unfold c, kickstart_to_repo.
  destruct (KS.truthy (KS.url data)), (KS.truthy (KS.mirrorlist data)),
    (KS.truthy (KS.metalink data)); cbn; split_and!; done.
Qed.

(** X7: the import of a kickstart record never fails for the type: the
    first of url, mirrorlist and metalink that is set and not empty gives
    the url and the type BASEURL, MIRRORLIST or METALINK, and with none of
    them the url is empty and the type is BASEURL. The import raises
    exactly for a proxy that is not empty and not well formed, and then
    the module is as before; otherwise the module holds the record and
    has emitted it. *)
Theorem process_kickstart_fails_for_proxy_only (data : KS.url_data)
    (self : URLSourceModule) :
  let c := kickstart_to_repo RepoConfigurationData_new data in
  type c ∈ URL_TYPES ∧
  (KS.truthy (KS.url data) = true →
     url c = KS.or_empty (KS.url data) ∧ type c = URL_TYPE_BASEURL) ∧
  (KS.truthy (KS.url data) = false →
   KS.truthy (KS.mirrorlist data) = true →
     url c = KS.or_empty (KS.mirrorlist data) ∧
     type c = URL_TYPE_MIRRORLIST) ∧
  (KS.truthy (KS.url data) = false →
   KS.truthy (KS.mirrorlist data) = false →
   KS.truthy (KS.metalink data) = true →
     url c = KS.or_empty (KS.metalink data) ∧
     type c = URL_TYPE_METALINK) ∧
  (KS.truthy (KS.url data) = false →
   KS.truthy (KS.mirrorlist data) = false →
   KS.truthy (KS.metalink data) = false →
     url c = "" ∧ type c = URL_TYPE_BASEURL) ∧
  (KS.proxy data = "" ∨ well_formed_proxy (KS.proxy data) →
     process_kickstart data self
       = (Ok (), mkModule c (emitted self ++ [c]))) ∧
  (KS.proxy data ≠ "" ∧ ¬ well_formed_proxy (KS.proxy data) →
     ∃ msg, process_kickstart data self
            = (Raise (InvalidValueError msg), self)).
Proof.
  intros c.
  destruct (kickstart_to_repo_url_type RepoConfigurationData_new data)
    as (H1 & H2 & H3 & H4 & Hp). fold c in H1, H2, H3, H4, Hp.
  assert (Hty : type c ∈ URL_TYPES).
  { unfold URL_TYPES.
    destruct (KS.truthy (KS.url data)).
    { destruct H1 as [_ ->]; [done|]. apply list_elem_of_here. }
    destruct (KS.truthy (KS.mirrorlist data)).
    { destruct H2 as [_ ->]; [done..|].
      apply list_elem_of_further, list_elem_of_here. }
    destruct (KS.truthy (KS.metalink data)).
    { destruct H3 as [_ ->]; [done..|].
      do 2 apply list_elem_of_further. apply list_elem_of_here. }
    destruct H4 as [_ ->]; [done..|]. apply list_elem_of_here. }
  split_and!; [done..| |].
  - intros Hok. unfold URLSource.process_kickstart. fold c.
    destruct (set_repo_configuration_cases ProxyString_error c self)
      as [[Hrej _]|[_ Hr]]; [|done].
    destruct Hrej as [?|[Hne Hwf]]; [done|].
    rewrite Hp in Hne, Hwf. by destruct Hok.
  - intros [Hne Hwf]. unfold URLSource.process_kickstart. fold c.
    destruct (set_repo_configuration_cases ProxyString_error c self)
      as [[_ Hr]|[Hok _]]; [done|].
    destruct Hok. right. by rewrite Hp.
Qed.


(** X9: what a module has emitted are configurations that passed the
    validations, and the last of them is the configuration it holds;
    a module that has emitted nothing holds the configuration of a new
    module. *)
Theorem last_emitted_is_held (self : URLSourceModule) :
  reachable self →
  Forall (λ c, ¬ rejected c) (emitted self) ∧
  (emitted self = [] →
     repo_configuration self = RepoConfigurationData_new) ∧
  (∀ c, last (emitted self) = Some c → repo_configuration self = c).
Proof.
  induction 1 as [|self c r self' _ IH Hset].
  - split_and!; [constructor|done|done].
  - destruct (set_repo_configuration_cases ProxyString_error c self)
      as [[_ [msg Hr]]|[Hok Hr]]; rewrite Hr in Hset;
      injection Hset as <- <-; [done|].
    cbn [emitted repo_configuration]. destruct IH as (Hall & _ & _).
    split_and!.
    + apply Forall_app. split; [done|]. by repeat constructor.
    + by intros [_ ?]%app_eq_nil.
    + intros c'. rewrite last_snoc. by intros [= ->].
Qed.

(** X10: the type is checked before the proxy: a type that is not
    BASEURL, MIRRORLIST or METALINK is reported with its name, whatever
    the proxy is, and a malformed proxy is reported, with the text of the
    parser, only for a type that is accepted. *)
Theorem type_is_checked_first (c : RepoConfigurationData)
    (self : URLSourceModule) :
  (type c ∉ URL_TYPES →
     set_repo_configuration c self =
     (Raise (InvalidValueError
               ("Invalid source type set '" +:+ type c +:+ "'")), self)) ∧
  (type c ∈ URL_TYPES → proxy c ≠ "" →
   ∀ e, ProxyString_error (proxy c) = Some e →
     set_repo_configuration c self =
     (Raise (InvalidValueError
               ("Proxy URL does not have valid format: " +:+ e)), self)).
Proof.
  unfold URLSource.set_repo_configuration, _validate_url, _validate_proxy.
  unfold mbind, M_bind, mret, M_ret, raise, get, assign, emit.
  split.
  - intros Hty. by rewrite decide_False.
  - intros Hty Hp e He. by rewrite decide_True, decide_False, He.
Qed.

(** The export reads the fields of [same_source] only. *)
Lemma setup_kickstart_same_source (c c' : RepoConfigurationData)
    (em em' : list RepoConfigurationData) (data : KS.url_data) :
  same_source c c' →
  setup_kickstart (mkModule c' em') data
    = setup_kickstart (mkModule c em) data.
Proof.
  intros (Hu & Ht & Hp & Hv & Hca & Hcc & Hck).
  unfold setup_kickstart. cbn [repo_configuration].
  by rewrite Hu, Ht, Hp, Hv, Hca, Hcc, Hck.
Qed.

(** X11: for the configuration of a module, of type BASEURL or with a
    url that is not empty, the kickstart record of the export is stable:
    a module that imports it exports the same record again. *)
Theorem exported_record_is_stable (self target : URLSourceModule) :
  reachable self →
  url (repo_configuration self) ≠ "" ∨
  type (repo_configuration self) = URL_TYPE_BASEURL →
  let data := setup_kickstart self KS.fresh in
  ∃ target',
    process_kickstart data target = (Ok (), target') ∧
    setup_kickstart target' KS.fresh = data.
Proof.
  intros Hreach Hurl data.
  pose proof (reachable_valid _ _ Hreach) as Hvalid.
  assert (Hty : type (repo_configuration self) ∈ URL_TYPES).
  { destruct (decide (type (repo_configuration self) ∈ URL_TYPES));
      [done|]. destruct Hvalid. by left. }
  destruct self as [c em]. cbn [repo_configuration] in *.
  pose proof (round_trip_record c em Hty Hurl) as Hsame.
  unfold URLSource.process_kickstart.
  destruct (set_repo_configuration_cases ProxyString_error
              (kickstart_to_repo RepoConfigurationData_new data) target)
    as [[Hrej _]|[_ Hr]].
  - destruct Hvalid. destruct Hsame as (_ & Ht & Hp & _).
    unfold URLSource.rejected in *. fold data in Ht, Hp.
    by rewrite <- Ht, <- Hp.
  - eexists. split; [exact Hr|]. by apply setup_kickstart_same_source.
Qed.

(** X12: the configuration that [set_source_url] builds is refused by
    the URL source exactly for a type that is not BASEURL, MIRRORLIST or
    METALINK or for a proxy that is given, not empty and not well formed;
    with the default type and without a proxy it is accepted for every
    url, the empty one too. *)
Theorem set_source_url_conf_is_validated (url url_type : string)
    (proxy : option string) (self : URLSourceModule) :
  let conf := SourceSwitch.set_source_url_conf url url_type proxy in
  ((∃ msg, (set_repo_configuration conf self).1
           = Raise (InvalidValueError msg)) ↔
   url_type ∉ URL_TYPES ∨
   ∃ p, proxy = Some p ∧ p ≠ "" ∧ ¬ well_formed_proxy p) ∧
  set_repo_configuration
    (SourceSwitch.set_source_url_conf url URL_TYPE_BASEURL None) self
  = (Ok (),
     mkModule (set_url url RepoConfigurationData_new)
              (emitted self ++ [set_url url RepoConfigurationData_new])).
Proof.
  intros conf. split.
  - destruct (set_repo_configuration_cases ProxyString_error conf self)
      as [[Hrej [msg Hr]]|[Hok Hr]]; rewrite Hr; cbn [fst].
    + split; [|by exists msg]. intros _.
      destruct Hrej as [?|[Hne Hwf]]; [by left|]. right.
      destruct proxy as [p|]; [|done]. by exists p.
    + split; [by intros [msg ?]|]. intros Hbad. destruct Hok.
      destruct Hbad as [?|(p & -> & Hne & Hwf)]; [by left|by right].
  - destruct (set_repo_configuration_cases ProxyString_error
                (SourceSwitch.set_source_url_conf url URL_TYPE_BASEURL None)
                self) as [[Hrej _]|[_ Hr]]; [|done].
    destruct Hrej as [Hty|[Hne _]]; [|done].
    destruct Hty. apply list_elem_of_here.
Qed.

End MethodsExtra.


Lemma last_emitted_is_held_witness :
  let self :=
    (set_repo_configuration Examples.proxy_error Examples.metalink_repo
       init).2 in
  reachable Examples.proxy_error self ∧
  last (emitted self) = Some Examples.metalink_repo ∧
  repo_configuration self = Examples.metalink_repo.
Proof.
  intros self.
  assert (Hreach : reachable Examples.proxy_error self).
  { eapply reachable_set; [apply reachable_init|]. apply surjective_pairing. }
  assert (Hlast : last (emitted self) = Some Examples.metalink_repo)
    by by vm_compute.
  destruct (last_emitted_is_held Examples.proxy_error self Hreach)
    as (_ & _ & Hheld).
  split_and!; [done..|]. by apply Hheld.
Defined.

Lemma exported_record_is_stable_witness :
  let self :=
    (set_repo_configuration Examples.proxy_error Examples.metalink_repo
       init).2 in
  reachable Examples.proxy_error self ∧
  url (repo_configuration self) ≠ "" ∧
  ∃ target',
    process_kickstart Examples.proxy_error
      (setup_kickstart self KS.fresh) init = (Ok (), target') ∧
    setup_kickstart target' KS.fresh = setup_kickstart self KS.fresh.
Proof.
  intros self.
  assert (Hreach : reachable Examples.proxy_error self).
  { eapply reachable_set; [apply reachable_init|]. apply surjective_pairing. }
  assert (Hurl : url (repo_configuration self) ≠ "") by by vm_compute.
  split_and!; [done..|].
  by apply (exported_record_is_stable Examples.proxy_error self init Hreach);
    left.
Defined.

End URLSourceExtra.


(** ** Input checks, further *)

Module HelpersExtra.

Import Helpers HelpersMore HelpersSpec.

Section InputChecksExtra.

Context {Input Data : Type}.

Implicit Types (self : InputCheckHandler Input Data)
               (c : InputCheck Input Data)
               (k : call Input Data).

Lemma elem_of_failed_checks_with_message self c :
  c ∈ failed_checks_with_message self ↔
  c ∈ check_list self ∧ enabled c = true ∧
  check_status c ≠ CHECK_OK ∧ check_status c ≠ CHECK_SILENT.
Proof.
  unfold failed_checks_with_message.
  rewrite list_elem_of_filter, !not_elem_of_cons. split.
  - intros [(Hen & Hok & Hsilent & _) Hin]. done.
  - intros (Hin & Hen & Hok & Hsilent). split_and!; [done..| |done].
    apply not_elem_of_nil.
Qed.

(** X13: the failed checks with a message are, in the same order, the
    failed checks whose status is not [CHECK_SILENT]; an enabled check
    with the status [CHECK_SILENT] is a failed check without a message. *)
Theorem messages_are_failures self :
  failed_checks_with_message self `sublist_of` failed_checks self ∧
  (∀ c, c ∈ failed_checks_with_message self ↔
        c ∈ failed_checks self ∧ check_status c ≠ CHECK_SILENT) ∧
  (∀ c, c ∈ check_list self → enabled c = true →
        check_status c = CHECK_SILENT →
        c ∈ failed_checks self ∧ c ∉ failed_checks_with_message self).
Proof.
  split_and!.
  - unfold failed_checks_with_message, failed_checks.
    rewrite <- (list_filter_filter_l _ (λ c, failing c = true)).
    + apply sublist_filter.
    + intros c [Hen [Hok _]%not_elem_of_cons]. by apply failing_iff.
  - intros c.
    rewrite elem_of_failed_checks_with_message, elem_of_failed_checks.
    tauto.
  - intros c Hin Hen Hst. split.
    + apply elem_of_failed_checks. by rewrite Hst.
    + rewrite elem_of_failed_checks_with_message. tauto.
Qed.

Lemma perform_frozen ref self k d :
  (∀ v, k ≠ SetEnabled ref v) →
  check_list self !! ref = Some d → enabled d = false →
  check_list (perform self k) !! ref = Some d.
Proof.
  intros Hk Hd Hoff. destruct k as [i f x|ref'|ref' v]; cbn.
  - by apply lookup_app_l_Some.
  - unfold update_check_status.
    destruct (check_list self !! ref') as [c'|] eqn:Hc'; [|done].
    destruct (decide (ref' = ref)) as [->|Hne].
    + rewrite Hd in Hc'. injection Hc' as <-. by rewrite Hoff.
    + destruct (enabled c'); cbn; [|done].
      by rewrite list_lookup_insert_ne.
  - unfold set_enabled.
    destruct (check_list self !! ref') as [c'|] eqn:Hc'; [|done].
    cbn. rewrite list_lookup_insert_ne; [done|].
    intros ->. by destruct (Hk v).
Qed.

Lemma foldl_frozen ref calls : ∀ self d,
  Forall (λ k, ∀ v, k ≠ SetEnabled ref v) calls →
  check_list self !! ref = Some d → enabled d = false →
  check_list (foldl perform self calls) !! ref = Some d.
Proof.
  induction calls as [|k calls IH]; intros self d Hcalls Hd Hoff; [done|].
  apply Forall_cons in Hcalls as [Hk Hcalls]. cbn [foldl].
  apply IH; [done| |done]. by apply perform_frozen.
Qed.

(** X14: a check that is disabled keeps the status of the last time it
    was run: whatever is called on the handler in between, updates of
    that check too, it has this status when it is enabled again. *)
Theorem disabled_check_keeps_status (ref : nat) self c
    (calls : list (call Input Data)) :
  check_list self !! ref = Some c →
  Forall (λ k, ∀ v, k ≠ SetEnabled ref v) calls →
  let off := foldl perform (set_enabled ref false self) calls in
  check_list off !! ref = Some (with_enabled false c) ∧
  check_list (set_enabled ref true off) !! ref
    = Some (with_enabled true c) ∧
  (enabled c = true → check_list (set_enabled ref true off) !! ref = Some c).
Proof.
  intros Hc Hcalls off.
  assert (Hoff : check_list off !! ref = Some (with_enabled false c)).
  { apply foldl_frozen; [done| |done].
    unfold set_enabled. rewrite Hc. cbn [check_list].
    apply list_lookup_insert_eq. by eapply lookup_lt_Some. }
  assert (Hon : check_list (set_enabled ref true off) !! ref
                = Some (with_enabled true c)).
  { unfold set_enabled. rewrite Hoff. cbn [check_list].
    apply list_lookup_insert_eq. by eapply lookup_lt_Some. }
  split_and!; [done..|].
  intros Hen. rewrite Hon. f_equal. destruct c. cbn in Hen. by subst.
Qed.

Lemma perform_keeps ref self k c :
  check_list self !! ref = Some c →
  ∃ c', check_list (perform self k) !! ref = Some c' ∧
        input_obj c' = input_obj c ∧ data c' = data c ∧
        run_check c' = run_check c.
Proof.
  intros Hc. destruct k as [i f x|ref'|ref' v]; cbn.
  - exists c. split; [by apply lookup_app_l_Some|done].
  - unfold update_check_status.
    destruct (check_list self !! ref') as [c'|] eqn:Hc'; [|by exists c].
    destruct (enabled c'); cbn; [|by exists c].
    destruct (decide (ref' = ref)) as [->|Hne].
    + rewrite Hc in Hc'. injection Hc' as <-. eexists. split.
      * apply list_lookup_insert_eq. by eapply lookup_lt_Some.
      * done.
    + exists c. by rewrite list_lookup_insert_ne.
  - unfold set_enabled.
    destruct (check_list self !! ref') as [c'|] eqn:Hc'; [|by exists c].
    cbn. destruct (decide (ref' = ref)) as [->|Hne].
    + rewrite Hc in Hc'. injection Hc' as <-. eexists. split.
      * apply list_lookup_insert_eq. by eapply lookup_lt_Some.
      * done.
    + exists c. by rewrite list_lookup_insert_ne.
Qed.

Lemma perform_length self k :
  length (check_list (perform self k))
  = length (check_list self) + (if is_add k then 1 else 0).
Proof.
  destruct k as [i f x|ref'|ref' v]; cbn.
  - by rewrite length_app.
  - unfold update_check_status.
    destruct (check_list self !! ref') as [c'|]; [|lia].
    destruct (enabled c'); cbn; [|lia]. rewrite length_insert. lia.
  - unfold set_enabled.
    destruct (check_list self !! ref') as [c'|]; [|lia].
    cbn. rewrite length_insert. lia.
Qed.

(** X15: the checks of a handler are never removed or moved: after any
    calls the handler has one check more for every call of [add_check],
    and the check at a reference is still the check of the same input,
    check function and data; [add_check] returns the reference of the
    check it appends. *)
Theorem checks_are_never_removed self (calls : list (call Input Data)) :
  length (checks (foldl perform self calls))
    = length (checks self) + added calls ∧
  (∀ ref c, checks self !! ref = Some c →
     ∃ c', checks (foldl perform self calls) !! ref = Some c' ∧
           input_obj c' = input_obj c ∧ data c' = data c ∧
           run_check c' = run_check c) ∧
  (∀ i f d,
     checks (foldl perform (add_check i f d self).1 calls)
       !! (add_check i f d self).2
     ≠ None).
Proof.
  unfold checks.
  assert (Hlen : ∀ calls self,
            length (check_list (foldl perform self calls))
            = length (check_list self) + added calls).
  { clear. intros calls. induction calls as [|k calls IH]; intros self.
    - cbn. lia.
    - cbn [foldl]. rewrite IH, perform_length. unfold added.
      rewrite filter_cons. destruct (is_add k); cbn.
      + rewrite decide_True by done. cbn. lia.
      + rewrite decide_False by done. lia. }
  assert (Hkeep : ∀ calls self ref c,
            check_list self !! ref = Some c →
            ∃ c', check_list (foldl perform self calls) !! ref = Some c' ∧
                  input_obj c' = input_obj c ∧ data c' = data c ∧
                  run_check c' = run_check c).
  { clear. intros calls. induction calls as [|k calls IH]; intros self ref c Hc.
    - by exists c.
    - cbn [foldl].
      destruct (perform_keeps ref self k c Hc) as (c1 & Hc1 & Hi & Hd & Hr).
      destruct (IH _ _ _ Hc1) as (c2 & Hc2 & Hi2 & Hd2 & Hr2).
      exists c2. split; [done|]. by rewrite Hi2, Hd2, Hr2. }
  split_and!; [apply Hlen|apply Hkeep|].
  intros i f d.
  destruct (Hkeep calls (add_check i f d self).1 (add_check i f d self).2
              (InputCheck_init i f d)) as (c' & -> & _); [|done].
  unfold add_check. cbn [fst snd check_list].
  by rewrite lookup_app_r, Nat.sub_diag.
Qed.

(** X16: the update of an enabled check stores what the check function
    returns for the check, calls [set_status] once for it and leaves the
    other checks alone; the check is then among the failed checks exactly
    when the function returned something other than [CHECK_OK]. The update
    of a disabled check does nothing. *)
Theorem update_decides_failure (ref : nat) self c :
  check_list self !! ref = Some c →
  let self' := update_check_status ref self in
  let c' := mkCheck (input_obj c) (run_check c) (data c)
                    (run_check c (view_of c)) true in
  (enabled c = false → self' = self) ∧
  (enabled c = true →
     check_list self' !! ref = Some c' ∧
     set_status_calls self' = set_status_calls self ++ [ref] ∧
     (∀ ref', ref' ≠ ref →
        check_list self' !! ref' = check_list self !! ref') ∧
     (c' ∈ failed_checks self' ↔ run_check c (view_of c) ≠ CHECK_OK)).
Proof.
  intros Hc self' c'. unfold self', update_check_status. rewrite Hc.
  split.
  - by intros ->.
  - intros Hen. rewrite Hen. cbn [negb check_list set_status_calls].
    assert (Heq : mkCheck (input_obj c) (run_check c) (data c)
                    (run_check c (mkView (input_obj c) (data c)
                                         (check_status c) true))
                    true = c').
    { unfold c', view_of. by rewrite Hen. }
    cbv zeta. rewrite Heq.
    assert (Hnew : <[ref := c']> (check_list self) !! ref = Some c').
    { apply list_lookup_insert_eq. by eapply lookup_lt_Some. }
    split_and!.
    + exact Hnew.
    + done.
    + intros ref' Hne. by rewrite list_lookup_insert_ne.
    + rewrite elem_of_failed_checks. cbn [check_list].
      split; [intros (_ & _ & Hst); exact Hst|].
      intros Hst. split_and!; [|done|exact Hst].
      by eapply list_elem_of_lookup_2.
Qed.

End InputChecksExtra.

Lemma disabled_check_keeps_status_witness :
  let self := update_check_status 0 one_check in
  let calls := [UpdateCheckStatus 0; AddCheck "password" refuse_quietly None;
                UpdateCheckStatus 0] in
  let off := foldl perform (set_enabled 0 false self) calls in
  check_list self !! 0
    = Some (mkCheck "name" Examples.refuse None (Some "Required") true) ∧
  Forall (λ k, ∀ v, k ≠ SetEnabled 0 v) calls ∧
  failed_checks off = [] ∧
  failed_checks (set_enabled 0 true off)
    = [mkCheck "name" Examples.refuse None (Some "Required") true].
Proof.
  intros self calls off.
  assert (Hc : check_list self !! 0
               = Some (mkCheck "name" Examples.refuse None
                               (Some "Required") true)) by done.
  assert (Hcalls : Forall (λ k, ∀ v, k ≠ SetEnabled 0 v) calls).
  { by repeat constructor. }
  destruct (disabled_check_keeps_status 0 self _ calls Hc Hcalls)
    as (_ & _ & Hback).
  split_and!; [done..|].
  specialize (Hback eq_refl). by vm_compute.
Defined.

Lemma update_decides_failure_witness :
  let self' := update_check_status 0 one_check in
  check_list one_check !! 0
    = Some (mkCheck "name" Examples.refuse None CHECK_OK true) ∧
  failed_checks one_check = [] ∧
  failed_checks self'
    = [mkCheck "name" Examples.refuse None (Some "Required") true] ∧
  set_status_calls self' = [0].
Proof.
  intros self'.
  assert (Hc : check_list one_check !! 0
               = Some (mkCheck "name" Examples.refuse None CHECK_OK true))
    by done.
  destruct (update_decides_failure 0 one_check _ Hc) as [_ Hon].
  destruct (Hon eq_refl) as (_ & Hcalls & _).
  split_and!; [done..|exact Hcalls].
Defined.

End HelpersExtra.
